(** * nginx_log_chat: the log parsing and analytics pipeline

    A shallow embedding of [nginx_log_chat.py]: the access-log pattern
    [LOG_PATTERN] with the backtracking search that [re] performs on it,
    [parse_nginx_logs], [generate_summary], [detect_anomalies] and the two
    keyword tests of the interactive loop.

    Text.  A Python [str] is modelled as a list of characters, a character
    being a code point below 256 ([ascii]).  On that range [\s] is
    9-13, 28-31, 32, 133 and 160, [\d] is 0-9 and [str.lower] shifts A-Z and
    the Latin-1 capitals (192-222 but 215) by 32. *)

From Stdlib Require Import Strings.Ascii Strings.String.
From Stdlib Require Import List Arith Lia Bool ZArith Sorted Permutation.
Import ListNotations.

Set Implicit Arguments.

(** ** Text *)

Definition str := list ascii.

(** Literals are written as Rocq strings and read as character lists. *)
Definition txt (s : string) : str := list_ascii_of_string s.

Definition dquote : ascii := "034"%char.
Definition space : ascii := " "%char.

Definition char_eqb (a b : ascii) : bool := Ascii.eqb a b.

Fixpoint str_eqb (a b : str) : bool :=
  match a, b with
  | [], [] => true
  | x :: a', y :: b' => char_eqb x y && str_eqb a' b'
  | _, _ => false
  end.

Definition code (c : ascii) : nat := nat_of_ascii c.

(** [\s] of a [str] pattern: Unicode white space, here below 256. *)
Definition is_space (c : ascii) : bool :=
  let n := code c in
  ((9 <=? n) && (n <=? 13)) || ((28 <=? n) && (n <=? 32))
  || (n =? 133) || (n =? 160).

(** [\d] of a [str] pattern: decimal digits, here below 256.  The decimal
    digits of other scripts, which [\d] also matches, lie above 255 and
    are outside this model of text. *)
Definition is_digit (c : ascii) : bool :=
  let n := code c in (48 <=? n) && (n <=? 57).

(** ** The pattern language of [LOG_PATTERN] *)

Inductive cclass : Type :=
| NonSpace                (* \S *)
| Digit                   (* \d *)
| NotChar (c : ascii).    (* [^c] *)

Definition in_class (cl : cclass) (c : ascii) : bool :=
  match cl with
  | NonSpace => negb (is_space c)
  | Digit => is_digit c
  | NotChar d => negb (char_eqb c d)
  end.

Inductive regex : Type :=
| Eps
| Lit (c : ascii)                                   (* a literal character *)
| Rep (cl : cclass) (lo : nat) (hi : option nat)    (* cl{lo,hi}, greedy *)
| Alt (r1 r2 : regex)                               (* r1|r2 *)
| Seq (r1 r2 : regex)                               (* r1r2 *)
| Named (name : str) (r : regex).                   (* (?P<name>r) *)

Definition plus (cl : cclass) : regex := Rep cl 1 None.
Definition star (cl : cclass) : regex := Rep cl 0 None.
Definition exactly (n : nat) (cl : cclass) : regex := Rep cl n (Some n).

Fixpoint lits (s : str) : regex :=
  match s with
  | [] => Eps
  | c :: s' => Seq (Lit c) (lits s')
  end.

Fixpoint seqs (rs : list regex) : regex :=
  match rs with
  | [] => Eps
  | r :: rs' => Seq r (seqs rs')
  end.

(** [LOG_PATTERN], piece by piece as in the source. *)
Definition LOG_PATTERN : regex :=
  seqs
    [ Named (txt "ip") (plus NonSpace); lits (txt " - ");
      Named (txt "user") (plus NonSpace); lits (txt " [");
      Named (txt "date") (plus (NotChar "]")); lits (txt "] ");
      Lit dquote;
      Named (txt "method") (plus NonSpace); Lit space;
      Named (txt "url") (plus NonSpace); Lit space;
      Named (txt "protocol") (plus NonSpace); Lit dquote; Lit space;
      Named (txt "status") (exactly 3 Digit); Lit space;
      Named (txt "size") (Alt (plus Digit) (Lit "-")); Lit space;
      Lit dquote; Named (txt "referrer") (star (NotChar dquote)); Lit dquote;
      Lit space;
      Lit dquote; Named (txt "agent") (star (NotChar dquote)); Lit dquote ].

(** ** Backtracking matcher

    The matcher lists, in the order a backtracking engine tries them, the
    ways a pattern can match at the head of the input: the text consumed,
    the text left and the groups recorded.  The engine's answer is the first
    of them. *)

Definition caps := list (str * str).

Definition attempt : Type := (str * str * caps)%type.

(** Length of the longest prefix of [s] within the class. *)
Fixpoint span (cl : cclass) (s : str) : nat :=
  match s with
  | c :: s' => if in_class cl c then S (span cl s') else 0
  | [] => 0
  end.

(** The lengths a greedy repetition tries: from the longest, [n], down
    to [lo]. *)
Fixpoint countdown (lo n : nat) : list nat :=
  if n <? lo then []
  else match n with
       | 0 => [0]
       | S m => n :: countdown lo m
       end.

Definition bounded (hi : option nat) (n : nat) : nat :=
  match hi with
  | Some h => Nat.min h n
  | None => n
  end.

Fixpoint alts (r : regex) (s : str) (c : caps) : list attempt :=
  match r with
  | Eps => [([], s, c)]
  | Lit a =>
      match s with
      | b :: s' => if char_eqb a b then [([b], s', c)] else []
      | [] => []
      end
  | Rep cl lo hi =>
      map (fun k => (firstn k s, skipn k s, c))
          (countdown lo (bounded hi (span cl s)))
  | Alt r1 r2 => alts r1 s c ++ alts r2 s c
  | Seq r1 r2 =>
      flat_map (fun '(w1, s1, c1) =>
                  map (fun '(w2, s2, c2) => (w1 ++ w2, s2, c2))
                      (alts r2 s1 c1))
               (alts r1 s c)
  | Named name r' =>
      map (fun '(w, s', c') => (w, s', (name, w) :: c')) (alts r' s c)
  end.

(** [pattern.match]: the first attempt at the head of the input. *)
Definition match_here (r : regex) (s : str) : option attempt :=
  hd_error (alts r s []).

(** [pattern.search]: the first start position, from the left, at which the
    pattern matches; the end of the input is a start position too. *)
Fixpoint search (r : regex) (s : str) : option attempt :=
  match match_here r s with
  | Some m => Some m
  | None =>
      match s with
      | [] => None
      | _ :: s' => search r s'
      end
  end.

(** ** Records *)

(** The dictionary [m.groupdict()] of a match of [LOG_PATTERN]: its ten
    keys are fixed by the pattern. *)
Record entry : Type := Entry {
  ip : str;
  user : str;
  date : str;
  method : str;
  url : str;
  protocol : str;
  status : str;
  size : str;
  referrer : str;
  agent : str
}.

Fixpoint group (name : str) (c : caps) : option str :=
  match c with
  | [] => None
  | (n, w) :: c' => if str_eqb name n then Some w else group name c'
  end.

Definition bind {A B : Type} (x : option A) (f : A -> option B) : option B :=
  match x with
  | Some a => f a
  | None => None
  end.

Notation "x <- e ;; k" := (bind e (fun x => k))
  (at level 61, e at next level, right associativity).

(** A group that took no part in the match has no text; [LOG_PATTERN] has
    none such (see [groupdict_caps_of]). *)
Definition groupdict (c : caps) : option entry :=
  a <- group (txt "ip") c ;;
  b <- group (txt "user") c ;;
  d <- group (txt "date") c ;;
  e <- group (txt "method") c ;;
  f <- group (txt "url") c ;;
  g <- group (txt "protocol") c ;;
  h <- group (txt "status") c ;;
  i <- group (txt "size") c ;;
  j <- group (txt "referrer") c ;;
  k <- group (txt "agent") c ;;
  Some (Entry a b d e f g h i j k).

(** One turn of the loop of [parse_nginx_logs]: the record of a line, if
    the pattern is found in it. *)
Definition parse_line (line : str) : option entry :=
  match search LOG_PATTERN line with
  | Some (_, _, c) => groupdict c
  | None => None
  end.

(** ** The line grammar, read as the pattern reads it

    [<addr> - <user> [<timestamp>] "<method> <url> <protocol>" <status>
    <size> "<referrer>" "<agent>"]: a record is rendered into that literal
    shape, with the single spaces of the template between the fields, and
    a line conforms when it is the rendering of a record whose fields are
    as the pattern's classes ask.  This is the narrow reading of the
    grammar; its wording in the specification allows more (see
    [satisfies_grammar]). *)

Definition render (e : entry) : str :=
  ip e ++ space :: "-"%char :: space ::
  user e ++ space :: "["%char ::
  date e ++ "]"%char :: space :: dquote ::
  method e ++ space ::
  url e ++ space ::
  protocol e ++ dquote :: space ::
  status e ++ space ::
  size e ++ space :: dquote ::
  referrer e ++ dquote :: space :: dquote ::
  agent e ++ [dquote].

Definition nonempty (s : str) : bool :=
  match s with
  | [] => false
  | _ :: _ => true
  end.

(** A non-whitespace token. *)
Definition is_token (s : str) : bool :=
  nonempty s && forallb (in_class NonSpace) s.

(** Text without a closing bracket; the field is not omitted. *)
Definition is_timestamp (s : str) : bool :=
  nonempty s && forallb (in_class (NotChar "]")) s.

(** Exactly three digits. *)
Definition is_status (s : str) : bool :=
  (length s =? 3) && forallb (in_class Digit) s.

(** One or more digits, or the dash. *)
Definition is_size (s : str) : bool :=
  (nonempty s && forallb (in_class Digit) s) || str_eqb s (txt "-").

(** Quoted text: no quote character inside (nginx writes a quote of the
    request as an escape sequence that has none); may be empty. *)
Definition is_quoted (s : str) : bool :=
  forallb (in_class (NotChar dquote)) s.

Definition conforming (e : entry) : bool :=
  is_token (ip e) && is_token (user e) && is_timestamp (date e)
  && is_token (method e) && is_token (url e) && is_token (protocol e)
  && is_status (status e) && is_size (size e)
  && is_quoted (referrer e) && is_quoted (agent e).

(** The whole line satisfies the grammar. *)
Definition conforms (line : str) : Prop :=
  exists e, conforming e = true /\ line = render e.

(** Some part of the line satisfies the grammar. *)
Definition conforms_within (line : str) : Prop :=
  exists pre e post, conforming e = true /\ line = pre ++ render e ++ post.

(** ** The line grammar, in the words of the specification

    As the specification words it the grammar asks less: the three tokens
    of the request line are separated by white space, of any kind and
    length; the timestamp is any text without a closing bracket; referrer
    and agent have no unescaped quote, so a quote that a backslash escapes
    may stand in them. *)

Definition backslash : ascii := "092"%char.
Definition tab : ascii := "009"%char.

(** White space between two tokens. *)
Definition is_separator (s : str) : bool :=
  nonempty s && forallb is_space s.

(** Any text without a closing bracket. *)
Definition is_bracket_free (s : str) : bool :=
  forallb (in_class (NotChar "]")) s.

(** No quote but after a backslash. *)
Fixpoint quotes_escaped (s : str) : bool :=
  match s with
  | [] => true
  | c :: s' =>
      if char_eqb c backslash
      then match s' with
           | [] => true
           | _ :: s'' => quotes_escaped s''
           end
      else negb (char_eqb c dquote) && quotes_escaped s'
  end.

(** A line in the words of the grammar: its ten fields and the white space
    that separates the tokens of the request line. *)
Record worded_line : Type := WordedLine {
  fields : entry;
  gap1 : str;
  gap2 : str
}.

Definition render_worded (l : worded_line) : str :=
  let e := fields l in
  ip e ++ space :: "-"%char :: space ::
  user e ++ space :: "["%char ::
  date e ++ "]"%char :: space :: dquote ::
  method e ++ gap1 l ++
  url e ++ gap2 l ++
  protocol e ++ dquote :: space ::
  status e ++ space ::
  size e ++ space :: dquote ::
  referrer e ++ dquote :: space :: dquote ::
  agent e ++ [dquote].

Definition worded_ok (l : worded_line) : bool :=
  let e := fields l in
  is_token (ip e) && is_token (user e) && is_bracket_free (date e)
  && is_token (method e) && is_separator (gap1 l)
  && is_token (url e) && is_separator (gap2 l)
  && is_token (protocol e)
  && is_status (status e) && is_size (size e)
  && quotes_escaped (referrer e) && quotes_escaped (agent e).

(** The line satisfies the grammar as the specification words it. *)
Definition satisfies_grammar (line : str) : Prop :=
  exists l, worded_ok l = true /\ line = render_worded l.

(** What it means for a pattern to match a text exactly, whatever the order
    in which an engine looks for it. *)
Definition within (hi : option nat) (n : nat) : Prop :=
  match hi with
  | Some h => n <= h
  | None => True
  end.

Inductive Matches : regex -> str -> caps -> caps -> Prop :=
| MEps c : Matches Eps [] c c
| MLit a c : Matches (Lit a) [a] c c
| MRep cl lo hi w c :
    forallb (in_class cl) w = true -> lo <= length w -> within hi (length w) ->
    Matches (Rep cl lo hi) w c c
| MAltL r1 r2 w c c' : Matches r1 w c c' -> Matches (Alt r1 r2) w c c'
| MAltR r1 r2 w c c' : Matches r2 w c c' -> Matches (Alt r1 r2) w c c'
| MSeq r1 r2 w1 w2 c c1 c2 :
    Matches r1 w1 c c1 -> Matches r2 w2 c1 c2 ->
    Matches (Seq r1 r2) (w1 ++ w2) c c2
| MNamed name r w c c' :
    Matches r w c c' -> Matches (Named name r) w c ((name, w) :: c').

(** The groups of a match of [LOG_PATTERN], the last recorded first. *)
Definition caps_of (e : entry) : caps :=
  [ (txt "agent", agent e); (txt "referrer", referrer e);
    (txt "size", size e); (txt "status", status e);
    (txt "protocol", protocol e); (txt "url", url e);
    (txt "method", method e); (txt "date", date e);
    (txt "user", user e); (txt "ip", ip e) ].

(** ** Loading the log *)

Definition ACCESS_LOG : str := txt "/var/log/nginx/access.log".
Definition LOG_LIMIT : Z := 500.

(** [l[start:]]: a negative start counts from the end, and both ends are
    clamped to the list. *)
Definition slice_from {A : Type} (start : Z) (l : list A) : list A :=
  let n := Z.of_nat (length l) in
  let i := if (start <? 0)%Z then Z.max 0 (start + n) else Z.min start n in
  skipn (Z.to_nat i) l.

(** The body of the loop: [entries.append(m.groupdict())] when the pattern
    is found, nothing otherwise. *)
Definition parse_step (entries : list entry) (line : str) : list entry :=
  match parse_line line with
  | Some e => entries ++ [e]
  | None => entries
  end.

Definition parse_lines (lines : list str) : list entry :=
  fold_left parse_step lines [].

(** The records of the lines that parse, in the order of the lines. *)
Definition records_of (lines : list str) : list entry :=
  flat_map (fun line => match parse_line line with
                        | Some e => [e]
                        | None => []
                        end) lines.

(** The last [n] elements of a list, in order. *)
Definition last_n {A : Type} (n : nat) (l : list A) : list A :=
  skipn (length l - n) l.

(** What [box_print] shows. *)
Inductive panel : Type :=
| LogFileNotFound (path : str)
| NoLogsParsed
| Banner.

(** [parse_nginx_logs]: the file is its list of lines, or [None] when
    [open] raises [FileNotFoundError].  The result is the list returned
    and the panels printed. *)
Definition parse_nginx_logs (limit : Z) (file : option (list str))
  : list entry * list panel :=
  match file with
  | Some content => (parse_lines (slice_from (- limit) content), [])
  | None => ([], [LogFileNotFound ACCESS_LOG])
  end.

(** The start of the main program, up to the question loop, for the two
    states of the file that [parse_nginx_logs] handles itself; [startup_on]
    adds the file that [open] cannot read. *)
Inductive outcome : Type :=
| Exit (status_code : Z)
| Serve (df : list entry).

Definition startup (file : option (list str)) : list panel * outcome :=
  let '(logs, shown) := parse_nginx_logs LOG_LIMIT file in
  match logs with
  | [] => (shown ++ [NoLogsParsed], Exit 1)
  | _ :: _ => (shown ++ [Banner], Serve logs)
  end.

(** The start of the main program with the third state a file can be in:
    [open] raises an error other than [FileNotFoundError] (no permission, a
    directory), which [parse_nginx_logs] does not catch. *)
Inductive log_file : Type :=
| FileMissing
| FileUnreadable
| FileLines (content : list str).

Inductive start : Type :=
| ExitCalled (status_code : Z)
| Uncaught
| LoopEntered (df : list entry).

Definition startup_on (f : log_file) : list panel * start :=
  match f with
  | FileUnreadable => ([], Uncaught)
  | FileMissing =>
      let '(shown, o) := startup None in
      (shown, match o with
              | Exit c => ExitCalled c
              | Serve df => LoopEntered df
              end)
  | FileLines content =>
      let '(shown, o) := startup (Some content) in
      (shown, match o with
              | Exit c => ExitCalled c
              | Serve df => LoopEntered df
              end)
  end.

(** ** Counting values

    [Series.value_counts()]: the distinct values are counted in the order
    they first appear, then the rows are sorted by count, largest first, by
    a sort that leaves rows of equal count in that order. *)

Definition series := list (str * nat).

Fixpoint bump (k : str) (tbl : series) : series :=
  match tbl with
  | [] => [(k, 1)]
  | (k', n) :: t => if str_eqb k k' then (k', S n) :: t else (k', n) :: bump k t
  end.

Definition value_count (xs : list str) : series :=
  fold_left (fun tbl x => bump x tbl) xs [].

Fixpoint insert_desc (row : str * nat) (l : series) : series :=
  match l with
  | [] => [row]
  | h :: t => if snd h <=? snd row then row :: h :: t else h :: insert_desc row t
  end.

Definition sort_values_desc (l : series) : series :=
  fold_right insert_desc [] l.

Definition value_counts (xs : list str) : series :=
  sort_values_desc (value_count xs).

(** [Series.head(n)]. *)
Definition head (n : nat) (s : series) : series := firstn n s.

(** ** Summary and anomalies *)

(** The values the program builds and hands to [json.dumps]. *)
#[local] Set Warnings "-register-all".
Inductive pyval : Type :=
| PyInt (n : nat)
| PyDict (items : list (str * pyval)).

Definition to_dict (s : series) : pyval :=
  PyDict (map (fun '(k, n) => (k, PyInt n)) s).

Definition column (f : entry -> str) (df : list entry) : list str := map f df.

Definition generate_summary (df : list entry) : pyval :=
  PyDict
    [ (txt "total_requests", PyInt (length df));
      (txt "status_counts", to_dict (value_counts (column status df)));
      (txt "top_ips", to_dict (head 3 (value_counts (column ip df))));
      (txt "top_urls", to_dict (head 3 (value_counts (column url df)))) ].

(** [str.startswith]. *)
Fixpoint startswith (prefix s : str) : bool :=
  match prefix, s with
  | [], _ => true
  | a :: p', b :: s' => char_eqb a b && startswith p' s'
  | _ :: _, [] => false
  end.

Definition error_counts (df : list entry) : series :=
  value_counts
    (column status (filter (fun e => startswith (txt "5") (status e)) df)).

Definition detect_anomalies (df : list entry) : pyval :=
  match error_counts df with
  | [] => PyDict []
  | _ :: _ => PyDict [(txt "5xx_errors", to_dict (error_counts df))]
  end.

(** The tables of the interactive loop. *)
Definition status_table (df : list entry) : series :=
  value_counts (column status df).
Definition top_ips_table (df : list entry) : series :=
  head 10 (value_counts (column ip df)).
Definition top_urls_table (df : list entry) : series :=
  head 10 (value_counts (column url df)).

(** Reading a dictionary. *)
Fixpoint lookup {V : Type} (k : str) (items : list (str * V)) : option V :=
  match items with
  | [] => None
  | (k', v) :: t => if str_eqb k k' then Some v else lookup k t
  end.

Definition pyget (k : str) (v : pyval) : option pyval :=
  match v with
  | PyDict items => lookup k items
  | PyInt _ => None
  end.

(** The count a dictionary of counts gives for a key. *)
Definition reported (k : str) (v : pyval) : option nat :=
  match pyget k v with
  | Some (PyInt n) => Some n
  | _ => None
  end.

(** The count [detect_anomalies] reports for a status code. *)
Definition anomaly_count (k : str) (df : list entry) : option nat :=
  d <- pyget (txt "5xx_errors") (detect_anomalies df) ;; reported k d.

(** The count [generate_summary] reports for a status code. *)
Definition summary_count (k : str) (df : list entry) : option nat :=
  d <- pyget (txt "status_counts") (generate_summary df) ;; reported k d.

(** The rows of a dictionary of counts, in its order. *)
Definition rows (v : pyval) : option series :=
  match v with
  | PyDict items =>
      fold_right (fun '(k, x) acc =>
                    match x, acc with
                    | PyInt n, Some l => Some ((k, n) :: l)
                    | _, _ => None
                    end) (Some []) items
  | PyInt _ => None
  end.

(** The rows [generate_summary] lists under a key. *)
Definition summary_rows (key : str) (df : list entry) : option series :=
  d <- pyget key (generate_summary df) ;; rows d.

(** ** Orderings of a table of counts *)

Fixpoint count (k : str) (xs : list str) : nat :=
  match xs with
  | [] => 0
  | x :: xs' => (if str_eqb k x then 1 else 0) + count k xs'
  end.

(** Position at which a value is first seen. *)
Fixpoint first_index (k : str) (xs : list str) : nat :=
  match xs with
  | [] => 0
  | x :: xs' => if str_eqb k x then 0 else S (first_index k xs')
  end.

(** One row per distinct value, with the number of its occurrences. *)
Definition grouped (xs : list str) (l : series) : Prop :=
  NoDup (map fst l) /\
  forall k n, In (k, n) l <-> In k xs /\ n = count k xs.

(** Larger count first; rows of equal count as [R] has them. *)
Definition by_count (R : str * nat -> str * nat -> Prop) (a b : str * nat)
  : Prop :=
  snd b < snd a \/ (snd a = snd b /\ R a b).

(** Larger count first; among equal counts, the value seen first. *)
Definition before_first_seen (xs : list str) (a b : str * nat) : Prop :=
  snd b < snd a \/
  (snd a = snd b /\ first_index (fst a) xs < first_index (fst b) xs).

(** The number a string of digits writes. *)
Definition digit_value (c : ascii) : nat := code c - 48.
Definition code_value (s : str) : nat :=
  fold_left (fun acc c => 10 * acc + digit_value c) s 0.


Definition ranked (xs : list str) (l : series) : Prop :=
  grouped xs l /\ StronglySorted (before_first_seen xs) l.

(** The same ordering, said of the values and their places alone. *)
Definition str_eq_dec : forall a b : str, {a = b} + {a <> b} :=
  list_eq_dec ascii_dec.




(** ** The keyword tests of the question loop *)

(** [str.lower], below 256. *)
Definition lower_char (c : ascii) : ascii :=
  let n := code c in
  if ((65 <=? n) && (n <=? 90))
     || ((192 <=? n) && (n <=? 222) && negb (n =? 215))
  then ascii_of_nat (n + 32) else c.

Definition lower (s : str) : str := map lower_char s.

(** [needle in hay]. *)
Fixpoint contains (needle hay : str) : bool :=
  startswith needle hay ||
  match hay with
  | [] => false
  | _ :: hay' => contains needle hay'
  end.

(** The test before the anomaly panel, on the corrected question. *)
Definition shows_anomalies (corrected_q : str) : bool :=
  contains (txt "anomaly") (lower corrected_q).

(** The test before the tables, on the corrected question. *)
Definition table_words : list str :=
  [txt "status"; txt "ip"; txt "url"; txt "table"; txt "top"].

Definition shows_tables (corrected_q : str) : bool :=
  existsb (fun word => contains word (lower corrected_q)) table_words.

(** A word occurs in a text, letter case aside. *)
Definition occurs_ignoring_case (word q : str) : Prop :=
  exists pre mid post, q = pre ++ mid ++ post /\ lower mid = word.

(** The same, said letter by letter for a word in small letters a-z: each
    character of the text is the letter of the word or its capital. *)
Definition same_letter (c w : ascii) : Prop :=
  c = w \/ (65 <= code c <= 90 /\ code c + 32 = code w).

Definition occurs_in_any_case (word q : str) : Prop :=
  exists pre mid post, q = pre ++ mid ++ post /\ Forall2 same_letter mid word.

Definition small_letters (word : str) : Prop :=
  Forall (fun w => 97 <= code w <= 122) word.

(** A typed line that is the word, in small or capital letters, with
    nothing but white space before and after it. *)
Definition is_word_line (word typed : str) : Prop :=
  exists l w r,
    typed = l ++ w ++ r /\
    forallb is_space l = true /\ forallb is_space r = true /\
    Forall2 same_letter w word.

Definition exit_line (typed : str) : Prop :=
  is_word_line (txt "exit") typed \/ is_word_line (txt "quit") typed.

(** A record whose status has 5 as its first character. *)
Definition has_5xx (df : list entry) : Prop :=
  exists e rest, In e df /\ status e = "5"%char :: rest.

(** ** The question loop

    One run of the loop of the main program, over the lines the operator
    types.  The spelling corrector and the model process are outside the
    program: the first is a function on text, the second answers the
    [n]-th call with an outcome of [subprocess.run]. *)

(** [str.strip()]: white space is dropped at both ends. *)
Fixpoint lstrip (s : str) : str :=
  match s with
  | c :: s' => if is_space c then lstrip s' else s
  | [] => []
  end.

Definition rstrip (s : str) : str := rev (lstrip (rev s)).

Definition strip (s : str) : str := rstrip (lstrip s).

(** The three parts that [ask_ai] puts into its prompt. *)
Record prompt : Type := Prompt {
  prompt_summary : pyval;
  prompt_anomalies : pyval;
  prompt_question : str
}.

Inductive run_outcome : Type :=
| Completed (stdout : str)
| TimeoutExpired
| RunFileNotFound.

(** What [ask_ai] returns: the text of the model, or one of its two
    notices. *)
Inductive answer : Type :=
| Answered (text : str)
| TimedOutNotice
| NotInstalledNotice.

Definition ask_ai (run : prompt -> run_outcome)
           (question : str) (summary anomalies : pyval) : answer :=
  match run (Prompt summary anomalies question) with
  | Completed stdout => Answered (strip stdout)
  | TimeoutExpired => TimedOutNotice
  | RunFileNotFound => NotInstalledNotice
  end.

(** The panels of the loop. *)
Inductive loop_panel : Type :=
| Goodbye
| CorrectedInput (corrected_q : str)
| AnomaliesDetected (anomalies : pyval)
| NoMajorAnomalies
| StatusCodes (table : series)
| TopIPs (table : series)
| TopURLs (table : series)
| AIAnswer (a : answer).

(** Truth value of a dictionary or number. *)
Definition truthy (v : pyval) : bool :=
  match v with
  | PyDict [] => false
  | PyDict (_ :: _) => true
  | PyInt 0 => false
  | PyInt (S _) => true
  end.

(** [q.lower() in ["exit", "quit"]]. *)
Definition is_exit (q : str) : bool :=
  existsb (str_eqb (lower q)) [txt "exit"; txt "quit"].

(** How a run of the loop ends: on the exit word, with the exception of
    [console.input] when the input has no more lines, or with the
    [MarkupError] of a panel that [rich] refuses. *)
Inductive ending : Type :=
| SessionClosed
| InputExhausted
| MarkupFailed.

Section Loop.

Variable correct_spelling : str -> str.
Variable run : nat -> prompt -> run_outcome.

(** Whether [rich] accepts the text of a panel as markup; it raises
    [MarkupError] when it does not. *)
Variable renders : loop_panel -> bool.

(** [box_print]: the panels whose text is fixed in the source have no
    markup tag and are always shown. *)
Definition box_print (p : loop_panel) : bool :=
  match p with
  | Goodbye => true
  | NoMajorAnomalies => true
  | AIAnswer TimedOutNotice => true
  | AIAnswer NotInstalledNotice => true
  | _ => renders p
  end.

(** Panels printed one after the other: the panels shown, and whether all
    of them were. *)
Fixpoint show (ps : list loop_panel) : list loop_panel * bool :=
  match ps with
  | [] => ([], true)
  | p :: ps' =>
      if box_print p
      then let '(shown, ok) := show ps' in (p :: shown, ok)
      else ([], false)
  end.

(** The panels of a turn that come before the call of the model. *)
Definition before_answer (df : list entry) (q : str) : list loop_panel :=
  let corrected_q := correct_spelling q in
  let anomalies := detect_anomalies df in
  (if str_eqb corrected_q q then [] else [CorrectedInput corrected_q])
  ++ (if shows_anomalies corrected_q
      then [if truthy anomalies then AnomaliesDetected anomalies
            else NoMajorAnomalies]
      else [])
  ++ (if shows_tables corrected_q
      then [StatusCodes (status_table df); TopIPs (top_ips_table df);
            TopURLs (top_urls_table df)]
      else []).

(** The body of the loop for a question that is not the exit word, [n]
    calls of the model having been made before: the panels shown, the
    calls made after it, and whether the turn came to its end. *)
Definition turn (df : list entry) (n : nat) (q : str)
  : list loop_panel * nat * bool :=
  let corrected_q := correct_spelling q in
  let '(shown, ok) := show (before_answer df q) in
  if ok
  then
    let a := AIAnswer (ask_ai (run n) corrected_q (generate_summary df)
                              (detect_anomalies df)) in
    if box_print a then (shown ++ [a], S n, true) else (shown, S n, false)
  else (shown, n, false).

(** The loop: the panels shown, the number of calls of the model made,
    and how the run ended. *)
Fixpoint session (df : list entry) (n : nat) (inputs : list str)
  : list loop_panel * nat * ending :=
  match inputs with
  | [] => ([], n, InputExhausted)
  | typed :: rest =>
      let q := strip typed in
      if is_exit q then ([Goodbye], n, SessionClosed)
      else
        let '(shown, n', ok) := turn df n q in
        if ok
        then let '(later, calls, e) := session df n' rest in
             (shown ++ later, calls, e)
        else (shown, n', MarkupFailed)
  end.

End Loop.

Definition is_ai_answer (p : loop_panel) : bool :=
  match p with
  | AIAnswer _ => true
  | _ => false
  end.

Definition is_goodbye (p : loop_panel) : bool :=
  match p with
  | Goodbye => true
  | _ => false
  end.

(** Stand-ins for the two outside programs, for examples. *)
Definition no_correction (q : str) : str := q.
Definition model_says (stdout : str) (p : prompt) : run_outcome :=
  Completed stdout.
Definition model_answers (stdout : str) (n : nat) (p : prompt)
  : run_outcome :=
  Completed stdout.
Definition renders_all (p : loop_panel) : bool := true.
Definition renders_none (p : loop_panel) : bool := false.

(** ** Totals *)

Definition total (s : series) : nat := list_sum (map snd s).

(** The rows a listing leaves out when only its first [n] are kept. *)
Definition left_out (n : nat) (s : series) : series := skipn n s.

(** ** Sample data *)

Definition quoted (s : str) : str := dquote :: s ++ [dquote].

(** A log line with the given request line and status text. *)
Definition log_line (request status_text : string) : str :=
  txt "1.1.1.1 - - [d] " ++ quoted (txt request) ++ space ::
  txt status_text ++ txt " 10 " ++ quoted (txt "-") ++ space ::
  quoted (txt "-").

Definition line_ok : str := log_line "GET /a HTTP/1.1" "200".

Definition entry_ok : entry :=
  Entry (txt "1.1.1.1") (txt "-") (txt "d") (txt "GET") (txt "/a")
        (txt "HTTP/1.1") (txt "200") (txt "10") (txt "-") (txt "-").

(** Text before a line that is otherwise as the grammar asks. *)
Definition line_after_text : str := txt "junk " ++ line_ok.

Definition line_missing_quote : str := removelast line_ok.
Definition line_long_status : str := log_line "GET /a HTTP/1.1" "2000".
Definition line_short_status : str := log_line "GET /a HTTP/1.1" "20".
Definition line_two_tokens : str := log_line "GET /a" "200".
Definition line_four_tokens : str := log_line "GET /a b HTTP/1.1" "200".
Definition line_malformed : str := txt "malformed line".

(** A line whose request line has a tab between method and url. *)
Definition line_tab_request : worded_line :=
  WordedLine entry_ok [tab] [space].

(** A line whose agent holds an escaped quote. *)
Definition line_escaped_quote : worded_line :=
  WordedLine
    (Entry (txt "1.1.1.1") (txt "-") (txt "d") (txt "GET") (txt "/a")
           (txt "HTTP/1.1") (txt "200") (txt "10") (txt "-")
           (txt "a" ++ backslash :: dquote :: txt "b"))
    [space] [space].

Definition with_status (s : string) : entry :=
  Entry (txt "1.1.1.1") (txt "-") (txt "d") (txt "GET") (txt "/a")
        (txt "HTTP/1.1") (txt s) (txt "10") (txt "-") (txt "-").

Definition store_5xx : list entry :=
  [with_status "500"; with_status "500"; with_status "503"].


(** * Properties *)

(** ** Characters and text *)

Lemma char_eqb_eq (a b : ascii) : char_eqb a b = true <-> a = b.
Proof. unfold char_eqb. apply Ascii.eqb_eq. Qed.

Lemma char_eqb_refl (a : ascii) : char_eqb a a = true.
Proof. apply char_eqb_eq. reflexivity. Qed.

Lemma char_eqb_neq (a b : ascii) : char_eqb a b = false <-> a <> b.
Proof. unfold char_eqb. apply Ascii.eqb_neq. Qed.

Lemma str_eqb_eq (a b : str) : str_eqb a b = true <-> a = b.
Proof.
  revert b. induction a as [|x a IH]; intros [|y b]; simpl; split;
    try congruence; try reflexivity.
  - intros H. apply andb_prop in H. destruct H as [H1 H2].
    apply char_eqb_eq in H1. apply IH in H2. congruence.
  - intros H. inversion H; subst. rewrite char_eqb_refl. simpl.
    apply IH. reflexivity.
Qed.

Lemma str_eqb_refl (a : str) : str_eqb a a = true.
Proof. apply str_eqb_eq. reflexivity. Qed.

Lemma str_eqb_neq (a b : str) : str_eqb a b = false <-> a <> b.
Proof.
  destruct (str_eqb a b) eqn:E; split; intros H; try congruence.
  - apply str_eqb_eq in E. contradiction.
  - intros ->. rewrite str_eqb_refl in E. discriminate.
Qed.

(** ** The matcher finds exactly the matches *)

Lemma countdown_In (lo n k : nat) : In k (countdown lo n) <-> lo <= k <= n.
Proof.
  induction n as [|n IH]; simpl.
  - destruct lo; simpl; split; intros H; try lia; try tauto.
  - destruct (S n <? lo) eqn:E.
    + apply Nat.ltb_lt in E. simpl. split; [tauto | lia].
    + apply Nat.ltb_ge in E. simpl. rewrite IH. lia.
Qed.

Lemma span_firstn (cl : cclass) (s : str) (k : nat) :
  k <= span cl s -> forallb (in_class cl) (firstn k s) = true.
Proof.
  revert k. induction s as [|a s IH]; intros k H; simpl in *.
  - replace k with 0 by lia. reflexivity.
  - destruct k as [|k]; [reflexivity|]. simpl.
    destruct (in_class cl a); [|lia]. simpl. apply IH. lia.
Qed.

Lemma span_prefix (cl : cclass) (w s : str) :
  forallb (in_class cl) w = true -> length w <= span cl (w ++ s).
Proof.
  induction w as [|a w IH]; simpl; intros H; [lia|].
  apply andb_prop in H. destruct H as [Ha Hw]. rewrite Ha.
  apply IH in Hw. lia.
Qed.

Lemma span_le (cl : cclass) (s : str) : span cl s <= length s.
Proof.
  induction s as [|a s IH]; simpl; [lia|].
  destruct (in_class cl a); lia.
Qed.

Lemma bounded_le (hi : option nat) (n k : nat) :
  k <= bounded hi n <-> k <= n /\ within hi k.
Proof. destruct hi as [h|]; simpl; lia. Qed.

Theorem alts_spec (r : regex) :
  forall s c w s' c',
    In (w, s', c') (alts r s c) <-> s = w ++ s' /\ Matches r w c c'.
Proof.
  induction r as [|a|cl lo hi|r1 IH1 r2 IH2|r1 IH1 r2 IH2|name r IH];
    intros s c w s' c'; simpl.
  - split.
    + intros [H|[]]. inversion H; subst. split; [reflexivity|constructor].
    + intros [-> H]. inversion H; subst. left. reflexivity.
  - split.
    + destruct s as [|b s]; [intros []|].
      destruct (char_eqb a b) eqn:E; [|intros []].
      apply char_eqb_eq in E. subst b.
      intros [H|[]]. inversion H; subst. split; [reflexivity|constructor].
    + intros [-> H]. inversion H; subst. simpl.
      rewrite char_eqb_refl. left. reflexivity.
  - rewrite in_map_iff. split.
    + intros [k [H Hk]]. inversion H; subst. clear H.
      apply countdown_In in Hk. destruct Hk as [Hlo Hhi].
      apply bounded_le in Hhi. destruct Hhi as [Hsp Hw].
      pose proof (span_le cl s) as Hlen.
      assert (Hk : length (firstn k s) = k)
        by (rewrite length_firstn; lia).
      split; [symmetry; apply firstn_skipn|].
      constructor; [apply span_firstn; assumption | lia | rewrite Hk; assumption].
    + intros [-> H]. inversion H; subst.
      exists (length w). split.
      * rewrite firstn_app, Nat.sub_diag, firstn_all. simpl.
        rewrite app_nil_r, skipn_app, Nat.sub_diag, skipn_all. reflexivity.
      * apply countdown_In. split; [assumption|].
        apply bounded_le. split; [apply span_prefix|]; assumption.
  - rewrite in_app_iff, IH1, IH2. split.
    + intros [[-> H]|[-> H]]; (split; [reflexivity|]);
        [apply MAltL | apply MAltR]; assumption.
    + intros [-> H]. inversion H; subst; [left | right]; tauto.
  - rewrite in_flat_map. split.
    + intros [[[w1 s1] c1] [H1 H2]]. apply in_map_iff in H2.
      destruct H2 as [[[w2 s2] c2] [E H2]]. inversion E; subst. clear E.
      apply IH1 in H1. apply IH2 in H2.
      destruct H1 as [-> M1]. destruct H2 as [-> M2].
      split; [apply app_assoc | econstructor; eassumption].
    + intros [-> H]. inversion H; subst.
      exists (w1, w2 ++ s', c1). split.
      * apply IH1. split; [symmetry; apply app_assoc | assumption].
      * apply in_map_iff. exists (w2, s', c'). split; [reflexivity|].
        apply IH2. tauto.
  - rewrite in_map_iff. split.
    + intros [[[w0 s0] c0] [E H]]. inversion E; subst. clear E.
      apply IH in H. destruct H as [-> M]. split; [reflexivity|].
      constructor. assumption.
    + intros [-> H]. inversion H; subst.
      exists (w, s', c'0). split; [reflexivity|]. apply IH. tauto.
Qed.

(** ** [LOG_PATTERN] matches the renderings of conforming records *)

Lemma Matches_lits (s : str) (c : caps) : Matches (lits s) s c c.
Proof.
  induction s as [|a s IH]; simpl; [constructor|].
  change (a :: s) with ([a] ++ s). econstructor; [constructor | exact IH].
Qed.

Lemma Matches_lits_inv (s w : str) (c c' : caps) :
  Matches (lits s) w c c' -> w = s /\ c' = c.
Proof.
  revert w c c'. induction s as [|a s IH]; simpl; intros w c c' H.
  - inversion H; subst. tauto.
  - inversion H; subst.
    match goal with M : Matches (Lit _) _ _ _ |- _ => inversion M; subst end.
    match goal with M : Matches (lits _) _ _ _ |- _ =>
      apply IH in M; destruct M as [-> ->] end.
    tauto.
Qed.

Lemma nonempty_length (s : str) : nonempty s = true <-> 1 <= length s.
Proof. destruct s; simpl; split; intros; try lia; congruence. Qed.

Lemma conforming_fields (e : entry) :
  conforming e = true <->
  (is_token (ip e) = true /\ is_token (user e) = true /\
   is_timestamp (date e) = true /\ is_token (method e) = true /\
   is_token (url e) = true /\ is_token (protocol e) = true /\
   is_status (status e) = true /\ is_size (size e) = true /\
   is_quoted (referrer e) = true /\ is_quoted (agent e) = true).
Proof. unfold conforming. rewrite !andb_true_iff. tauto. Qed.

Ltac lit_step :=
  match goal with
  | |- Matches (Seq (Lit ?a) _) (?b :: ?rest) _ _ =>
      change (b :: rest) with ([b] ++ rest);
      eapply MSeq; [apply MLit|]
  end.

Ltac rep_step :=
  eapply MSeq;
  [ apply MNamed, MRep;
    [ try assumption | try (apply nonempty_length; assumption); try lia
    | simpl; try exact I; try lia ] | ].

Lemma render_Matches (e : entry) :
  conforming e = true -> Matches LOG_PATTERN (render e) [] (caps_of e).
Proof.
  intros H. apply conforming_fields in H.
  unfold is_token, is_timestamp, is_status, is_size, is_quoted in H.
  rewrite !andb_true_iff in H.
  destruct H as ((Hip1 & Hip2) & (Hus1 & Hus2) & (Hda1 & Hda2) & (Hme1 & Hme2)
                 & (Hur1 & Hur2) & (Hpr1 & Hpr2) & (Hst1 & Hst2) & Hsz & Hre & Hag).
  apply Nat.eqb_eq in Hst1.
  unfold LOG_PATTERN, render, caps_of, plus, star, exactly. simpl seqs.
  rep_step.
  eapply (MSeq (w1 := txt " - ")); [apply (Matches_lits (txt " - "))|].
  rep_step.
  eapply (MSeq (w1 := txt " [")); [apply (Matches_lits (txt " ["))|].
  rep_step.
  eapply (MSeq (w1 := txt "] ")); [apply (Matches_lits (txt "] "))|].
  lit_step. rep_step. lit_step. rep_step. lit_step. rep_step.
  lit_step. lit_step. rep_step. lit_step.
  eapply MSeq.
  { apply MNamed. apply orb_true_iff in Hsz. destruct Hsz as [Hsz|Hsz].
    - apply andb_prop in Hsz. destruct Hsz as [Hn Hd].
      apply MAltL, MRep; [assumption | apply nonempty_length; assumption | exact I].
    - apply str_eqb_eq in Hsz. rewrite Hsz. apply MAltR. apply MLit. }
  lit_step. lit_step. rep_step. lit_step. lit_step. lit_step. rep_step.
  change [dquote] with ([dquote] ++ []). eapply MSeq; constructor.
Qed.

Ltac inv_matches :=
  repeat match goal with
    | H : Matches (Seq _ _) _ _ _ |- _ => inversion H; subst; clear H
    | H : Matches (Named _ _) _ _ _ |- _ => inversion H; subst; clear H
    | H : Matches (Lit _) _ _ _ |- _ => inversion H; subst; clear H
    | H : Matches Eps _ _ _ |- _ => inversion H; subst; clear H
    | H : Matches (Rep _ _ _) _ _ _ |- _ => inversion H; subst; clear H
    | H : Matches (lits _) _ _ _ |- _ =>
        apply Matches_lits_inv in H; destruct H as [? ?]; subst
    end.

Lemma Matches_size_inv (w : str) (c c' : caps) :
  Matches (Alt (Rep Digit 1 None) (Lit "-")) w c c' ->
  is_size w = true /\ c' = c.
Proof.
  intros H. inversion H; subst; inv_matches; split; try reflexivity.
  unfold is_size. apply orb_true_iff. left. apply andb_true_iff.
  split; [apply nonempty_length|]; assumption.
Qed.

Lemma Matches_render (w : str) (c c' : caps) :
  Matches LOG_PATTERN w c c' ->
  exists e, conforming e = true /\ w = render e /\ c' = caps_of e ++ c.
Proof.
  unfold LOG_PATTERN, plus, star, exactly. simpl seqs. intros H.
  inv_matches.
  match goal with H : Matches (Alt _ _) _ _ _ |- _ =>
    apply Matches_size_inv in H; destruct H as [Hsz ->] end.
  simpl within in *.
  eexists (Entry _ _ _ _ _ _ _ _ _ _).
  split; [|split]; [| unfold render; simpl; reflexivity | reflexivity].
  apply conforming_fields. simpl.
  unfold is_token, is_timestamp, is_status, is_quoted.
  repeat match goal with
         | H : 1 <= length _ |- _ => apply nonempty_length in H; rewrite H
         end.
  repeat match goal with
         | H : forallb _ _ = true |- _ => rewrite H; clear H
         end.
  match goal with
  | H : 3 <= length ?w |- _ =>
      replace (length w =? 3) with true by (symmetry; apply Nat.eqb_eq; lia)
  end.
  simpl. tauto.
Qed.

(** The groups of a match are those of the record it renders. *)
Lemma groupdict_caps_of (e : entry) : groupdict (caps_of e) = Some e.
Proof. destruct e. reflexivity. Qed.

(** ** A line renders one record only *)

Lemma split_unique (d : ascii) (a a' s s' : str) :
  ~ In d a -> ~ In d a' -> a ++ d :: s = a' ++ d :: s' -> a = a' /\ s = s'.
Proof.
  revert a'. induction a as [|x a IH]; intros [|y a'] Ha Ha' H; simpl in *.
  - inversion H. tauto.
  - inversion H; subst. tauto.
  - inversion H; subst. tauto.
  - inversion H; subst.
    destruct (IH a') as [-> ->]; try tauto.
Qed.

Lemma class_excludes (cl : cclass) (d : ascii) (s : str) :
  in_class cl d = false -> forallb (in_class cl) s = true -> ~ In d s.
Proof.
  intros Hd Hs Hin. rewrite forallb_forall in Hs. apply Hs in Hin. congruence.
Qed.

Lemma token_no_space (s : str) : is_token s = true -> ~ In space s.
Proof.
  unfold is_token. intros H. apply andb_prop in H. destruct H as [_ H].
  revert H. apply class_excludes. reflexivity.
Qed.

Lemma timestamp_no_bracket (s : str) :
  is_timestamp s = true -> ~ In "]"%char s.
Proof.
  unfold is_timestamp. intros H. apply andb_prop in H. destruct H as [_ H].
  revert H. apply class_excludes. reflexivity.
Qed.

Lemma status_no_space (s : str) : is_status s = true -> ~ In space s.
Proof.
  unfold is_status. intros H. apply andb_prop in H. destruct H as [_ H].
  revert H. apply class_excludes. reflexivity.
Qed.

Lemma size_no_space (s : str) : is_size s = true -> ~ In space s.
Proof.
  unfold is_size. intros H. apply orb_true_iff in H. destruct H as [H|H].
  - apply andb_prop in H. destruct H as [_ H].
    revert H. apply class_excludes. reflexivity.
  - apply str_eqb_eq in H. subst s. simpl. intros [H|[]]. discriminate.
Qed.

Lemma quoted_no_quote (s : str) : is_quoted s = true -> ~ In dquote s.
Proof. unfold is_quoted. apply class_excludes. reflexivity. Qed.

Lemma render_app (e : entry) (rest : str) :
  render e ++ rest =
  ip e ++ space :: "-"%char :: space ::
  user e ++ space :: "["%char ::
  date e ++ "]"%char :: space :: dquote ::
  method e ++ space ::
  url e ++ space ::
  (protocol e ++ [dquote]) ++ space ::
  status e ++ space ::
  size e ++ space :: dquote ::
  referrer e ++ dquote :: space :: dquote ::
  agent e ++ dquote :: rest.
Proof.
  unfold render. repeat (rewrite <- app_assoc; simpl). reflexivity.
Qed.

Ltac peel H d :=
  apply (split_unique d) in H;
  [ let E := fresh "E" in destruct H as [E H]; repeat (injection H as H)
  | auto using token_no_space, timestamp_no_bracket, status_no_space,
      size_no_space, quoted_no_quote .. ].

Lemma render_unique (e e' : entry) (rest rest' : str) :
  conforming e = true -> conforming e' = true ->
  render e ++ rest = render e' ++ rest' -> e = e' /\ rest = rest'.
Proof.
  intros C C' H. rewrite !render_app in H.
  apply conforming_fields in C, C'.
  destruct C as (? & ? & ? & ? & ? & ? & ? & ? & ? & ?).
  destruct C' as (? & ? & ? & ? & ? & ? & ? & ? & ? & ?).
  destruct e, e'; simpl in *.
  peel H space. peel H space. peel H "]"%char. peel H space. peel H space.
  apply (split_unique space) in H.
  2, 3: intros Hin; apply in_app_or in Hin; destruct Hin as [Hin|[Hin|[]]];
    [ revert Hin; apply token_no_space; assumption | discriminate ].
  destruct H as [Ep H]. apply app_inj_tail in Ep. destruct Ep as [Ep _].
  repeat (injection H as H).
  peel H space. peel H space. peel H dquote. peel H dquote.
  subst. split; reflexivity.
Qed.

(** ** Search: the leftmost start position *)

Lemma search_None (r : regex) (s : str) :
  search r s = None <->
  forall pre s0, s = pre ++ s0 -> match_here r s0 = None.
Proof.
  induction s as [|a s IH]; simpl.
  - destruct (match_here r []) eqn:E; split; intros H; try discriminate.
    + specialize (H [] [] eq_refl). congruence.
    + intros pre s0 H0. symmetry in H0. apply app_eq_nil in H0.
      destruct H0 as [_ ->]. exact E.
    + reflexivity.
  - destruct (match_here r (a :: s)) eqn:E; split; intros H; try discriminate.
    + specialize (H [] (a :: s) eq_refl). congruence.
    + intros [|b pre] s0 H0; simpl in H0.
      * subst s0. exact E.
      * inversion H0; subst. rewrite IH in H. eapply H. reflexivity.
    + apply IH. intros pre s0 ->. apply (H (a :: pre)). reflexivity.
Qed.

Lemma search_Some (r : regex) (s : str) (m : attempt) :
  search r s = Some m ->
  exists pre s0,
    s = pre ++ s0 /\ match_here r s0 = Some m /\
    forall pre' s1, s = pre' ++ s1 -> length pre' < length pre ->
                    match_here r s1 = None.
Proof.
  induction s as [|a s IH]; simpl.
  - destruct (match_here r []) eqn:E; intros H; inversion H; subst.
    exists [], []. repeat split; try assumption. simpl. intros; lia.
  - destruct (match_here r (a :: s)) eqn:E; intros H.
    + inversion H; subst. exists [], (a :: s).
      repeat split; try assumption. simpl. intros; lia.
    + destruct (IH H) as (pre & s0 & -> & Hm & Hleft).
      exists (a :: pre), s0. repeat split; try assumption.
      intros [|b pre'] s1 H1 Hlen; simpl in *.
      * subst s1. exact E.
      * inversion H1; subst. eapply Hleft; [eassumption | lia].
Qed.

Lemma search_here (r : regex) (s : str) (m : attempt) :
  match_here r s = Some m -> search r s = Some m.
Proof. intros H. destruct s; simpl; rewrite H; reflexivity. Qed.

Lemma match_here_render (e : entry) (rest : str) :
  conforming e = true ->
  match_here LOG_PATTERN (render e ++ rest) = Some (render e, rest, caps_of e).
Proof.
  intros C. unfold match_here.
  assert (Hin : In (render e, rest, caps_of e)
                   (alts LOG_PATTERN (render e ++ rest) [])).
  { apply alts_spec. split; [reflexivity|]. apply render_Matches, C. }
  destruct (alts LOG_PATTERN (render e ++ rest) []) as [|[[w s'] c'] l] eqn:E;
    [destruct Hin|].
  assert (Hfirst : In (w, s', c') (alts LOG_PATTERN (render e ++ rest) []))
    by (rewrite E; left; reflexivity).
  apply alts_spec in Hfirst. destruct Hfirst as [Heq M].
  apply Matches_render in M. destruct M as (e' & C' & -> & ->).
  destruct (render_unique e e' rest s' C C' Heq) as [<- <-].
  rewrite app_nil_r. reflexivity.
Qed.

Lemma match_here_sound (s w s' : str) (c : caps) :
  match_here LOG_PATTERN s = Some (w, s', c) ->
  exists e, conforming e = true /\ w = render e /\ s = render e ++ s' /\
            c = caps_of e.
Proof.
  unfold match_here. intros H.
  assert (Hin : In (w, s', c) (alts LOG_PATTERN s [])).
  { destruct (alts LOG_PATTERN s []) as [|x l]; simpl in H; inversion H.
    left. reflexivity. }
  apply alts_spec in Hin. destruct Hin as [-> M].
  apply Matches_render in M. destruct M as (e & C & -> & ->).
  exists e. rewrite app_nil_r. repeat split; assumption.
Qed.

Lemma match_here_None (s : str) :
  match_here LOG_PATTERN s = None <->
  forall e rest, conforming e = true -> s <> render e ++ rest.
Proof.
  split.
  - intros H e rest C ->. rewrite match_here_render in H by assumption.
    discriminate.
  - intros H. destruct (match_here LOG_PATTERN s) as [[[w s'] c]|] eqn:E;
      [|reflexivity].
    apply match_here_sound in E. destruct E as (e & C & _ & E & _).
    exfalso. exact (H e s' C E).
Qed.

(** ** [parse_line] *)

(** A line that starts with the rendering of a conforming record parses to
    that record, whatever follows. *)
Lemma parse_line_render (e : entry) (post : str) :
  conforming e = true -> parse_line (render e ++ post) = Some e.
Proof.
  intros C. unfold parse_line.
  rewrite (search_here _ _ (match_here_render e post C)).
  apply groupdict_caps_of.
Qed.

(** The record of a line is conforming and renders the leftmost part of the
    line that satisfies the grammar. *)
Lemma parse_line_sound (line : str) (e : entry) :
  parse_line line = Some e ->
  conforming e = true /\
  exists pre post,
    line = pre ++ render e ++ post /\
    forall pre' e' post',
      conforming e' = true -> line = pre' ++ render e' ++ post' ->
      length pre <= length pre'.
Proof.
  unfold parse_line.
  destruct (search LOG_PATTERN line) as [[[w s'] c]|] eqn:E; [|discriminate].
  intros G. apply search_Some in E. destruct E as (pre & s0 & -> & Hm & Hleft).
  apply match_here_sound in Hm. destruct Hm as (e0 & C & -> & -> & ->).
  rewrite groupdict_caps_of in G. inversion G; subst e0.
  split; [assumption|]. exists pre, s'. split; [reflexivity|].
  intros pre' e' post' C' H.
  destruct (Nat.le_gt_cases (length pre) (length pre')) as [Hle|Hlt];
    [assumption|].
  specialize (Hleft pre' (render e' ++ post') H Hlt).
  rewrite match_here_render in Hleft by assumption. discriminate.
Qed.

(** No record exactly when no part of the line satisfies the grammar. *)
Lemma parse_line_None (line : str) :
  parse_line line = None <-> ~ conforms_within line.
Proof.
  unfold parse_line, conforms_within. split.
  - destruct (search LOG_PATTERN line) as [[[w s'] c]|] eqn:E.
    + apply search_Some in E. destruct E as (pre & s0 & _ & Hm & _).
      apply match_here_sound in Hm. destruct Hm as (e0 & _ & _ & _ & ->).
      rewrite groupdict_caps_of. discriminate.
    + intros _ (pre & e & post & C & H).
      rewrite search_None in E. specialize (E pre _ H).
      rewrite match_here_render in E by assumption. discriminate.
  - intros H.
    destruct (search LOG_PATTERN line) as [[[w s'] c]|] eqn:E; [|reflexivity].
    exfalso. apply H.
    apply search_Some in E. destruct E as (pre & s0 & -> & Hm & _).
    apply match_here_sound in Hm. destruct Hm as (e0 & C & _ & -> & _).
    exists pre, e0, s'. tauto.
Qed.

(** ** The loop of [parse_nginx_logs] *)

Lemma fold_parse_step (lines : list str) (acc : list entry) :
  fold_left parse_step lines acc = acc ++ records_of lines.
Proof.
  revert acc. induction lines as [|l lines IH]; intros acc; simpl.
  - symmetry. apply app_nil_r.
  - rewrite IH. unfold parse_step.
    destruct (parse_line l); simpl; [rewrite <- app_assoc|]; reflexivity.
Qed.

Lemma parse_lines_records (lines : list str) :
  parse_lines lines = records_of lines.
Proof. unfold parse_lines. apply fold_parse_step. Qed.

Lemma parse_lines_app (a b : list str) :
  parse_lines (a ++ b) = parse_lines a ++ parse_lines b.
Proof. rewrite !parse_lines_records. apply flat_map_app. Qed.

Lemma parse_lines_length (lines : list str) :
  length (parse_lines lines) <= length lines.
Proof.
  rewrite parse_lines_records.
  induction lines as [|l lines IH]; simpl; [lia|].
  rewrite length_app. destruct (parse_line l); simpl; lia.
Qed.

Lemma parse_lines_none (lines : list str) :
  (forall l, In l lines -> parse_line l = None) -> parse_lines lines = [].
Proof.
  rewrite parse_lines_records.
  induction lines as [|l lines IH]; simpl; intros H; [reflexivity|].
  rewrite (H l) by tauto. simpl. apply IH. intros; apply H; tauto.
Qed.

(** ** Slices *)

Lemma slice_from_zero {A : Type} (l : list A) : slice_from 0 l = l.
Proof. unfold slice_from. simpl. rewrite Z.min_l by lia. reflexivity. Qed.

Lemma slice_from_last {A : Type} (limit : Z) (l : list A) :
  (0 < limit)%Z -> slice_from (- limit) l = last_n (Z.to_nat limit) l.
Proof.
  intros H. unfold slice_from, last_n.
  replace (- limit <? 0)%Z with true by (symmetry; apply Z.ltb_lt; lia).
  f_equal. lia.
Qed.

Lemma slice_from_In {A : Type} (start : Z) (l : list A) (x : A) :
  In x (slice_from start l) -> In x l.
Proof.
  unfold slice_from. intros H.
  rewrite <- (firstn_skipn (Z.to_nat
    (if (start <? 0)%Z then Z.max 0 (start + Z.of_nat (length l))
     else Z.min start (Z.of_nat (length l)))) l).
  apply in_or_app. right. exact H.
Qed.

Lemma last_n_length {A : Type} (n : nat) (l : list A) :
  length (last_n n l) = Nat.min n (length l).
Proof. unfold last_n. rewrite length_skipn. lia. Qed.

Lemma last_n_suffix {A : Type} (n : nat) (l : list A) :
  exists before, l = before ++ last_n n l.
Proof.
  exists (firstn (length l - n) l). unfold last_n.
  symmetry. apply firstn_skipn.
Qed.

(** A positive limit keeps the last lines only. *)
Lemma parse_nginx_logs_positive_limit (limit : Z) (lines : list str) :
  (0 < limit)%Z ->
  fst (parse_nginx_logs limit (Some lines))
  = records_of (last_n (Z.to_nat limit) lines) /\
  length (fst (parse_nginx_logs limit (Some lines)))
  <= Nat.min (Z.to_nat limit) (length lines).
Proof.
  intros H. simpl. rewrite slice_from_last by assumption. split.
  - apply parse_lines_records.
  - rewrite <- last_n_length. apply parse_lines_length.
Qed.

(** ** Counting: occurrences and first positions *)

Lemma count_app (k : str) (xs ys : list str) :
  count k (xs ++ ys) = count k xs + count k ys.
Proof. induction xs as [|x xs IH]; simpl; [reflexivity|]. rewrite IH. lia. Qed.

Lemma count_pos (k : str) (xs : list str) : 0 < count k xs <-> In k xs.
Proof.
  induction xs as [|x xs IH]; simpl; [split; [lia|tauto]|].
  destruct (str_eqb k x) eqn:E.
  - apply str_eqb_eq in E. split; [auto | lia].
  - apply str_eqb_neq in E. rewrite <- IH. split.
    + intros H. right. lia.
    + intros [H|H]; [congruence | lia].
Qed.

Lemma count_filter (p : str -> bool) (k : str) (xs : list str) :
  count k (filter p xs) = if p k then count k xs else 0.
Proof.
  induction xs as [|x xs IH]; simpl; [destruct (p k); reflexivity|].
  destruct (str_eqb k x) eqn:E.
  - apply str_eqb_eq in E. subst x.
    destruct (p k) eqn:Pk; simpl; [rewrite str_eqb_refl|]; rewrite IH;
      reflexivity.
  - destruct (p x); simpl; [rewrite E|]; rewrite IH; destruct (p k);
      reflexivity.
Qed.

Lemma first_index_lt (k : str) (xs : list str) :
  first_index k xs < length xs <-> In k xs.
Proof.
  induction xs as [|x xs IH]; simpl; [split; [lia|tauto]|].
  destruct (str_eqb k x) eqn:E.
  - apply str_eqb_eq in E. split; [auto | lia].
  - apply str_eqb_neq in E. rewrite <- IH. split.
    + intros H. right. lia.
    + intros [H|H]; [congruence | lia].
Qed.

Lemma first_index_le (k : str) (xs : list str) :
  first_index k xs <= length xs.
Proof.
  induction xs as [|x xs IH]; simpl; [lia|].
  destruct (str_eqb k x); lia.
Qed.

Lemma first_index_app_in (k : str) (xs ys : list str) :
  In k xs -> first_index k (xs ++ ys) = first_index k xs.
Proof.
  induction xs as [|x xs IH]; simpl; [tauto|].
  destruct (str_eqb k x) eqn:E; [reflexivity|].
  apply str_eqb_neq in E. intros [H|H]; [congruence|].
  rewrite IH by assumption. reflexivity.
Qed.

Lemma first_index_app_out (k : str) (xs ys : list str) :
  ~ In k xs -> first_index k (xs ++ ys) = length xs + first_index k ys.
Proof.
  induction xs as [|x xs IH]; simpl; [reflexivity|].
  intros H. destruct (str_eqb k x) eqn:E.
  - apply str_eqb_eq in E. subst. tauto.
  - rewrite IH by tauto. reflexivity.
Qed.

(** ** Dictionaries *)

Lemma lookup_In {V : Type} (k : str) (v : V) (l : list (str * V)) :
  lookup k l = Some v -> In (k, v) l.
Proof.
  induction l as [|[k' v'] l IH]; simpl; [discriminate|].
  destruct (str_eqb k k') eqn:E.
  - apply str_eqb_eq in E. intros H. inversion H; subst. left. reflexivity.
  - intros H. right. apply IH, H.
Qed.

Lemma In_lookup {V : Type} (k : str) (v : V) (l : list (str * V)) :
  NoDup (map fst l) -> In (k, v) l -> lookup k l = Some v.
Proof.
  induction l as [|[k' v'] l IH]; simpl; [tauto|].
  intros ND [H|H].
  - inversion H; subst. rewrite str_eqb_refl. reflexivity.
  - inversion ND; subst. destruct (str_eqb k k') eqn:E.
    + apply str_eqb_eq in E. subst. exfalso.
      match goal with N : ~ In _ _ |- _ => apply N end.
      apply (in_map fst) in H. exact H.
    + apply IH; assumption.
Qed.

Lemma lookup_None {V : Type} (k : str) (l : list (str * V)) :
  lookup k l = None <-> ~ In k (map fst l).
Proof.
  induction l as [|[k' v'] l IH]; simpl; [tauto|].
  destruct (str_eqb k k') eqn:E.
  - apply str_eqb_eq in E. split; [discriminate | intros H; exfalso; auto].
  - apply str_eqb_neq in E. rewrite IH. split; intros H; [|tauto].
    intros [H1|H1]; [congruence | tauto].
Qed.

(** ** The counting pass *)

Lemma bump_lookup (x k : str) (tbl : series) :
  lookup k (bump x tbl) =
  if str_eqb k x
  then Some (S (match lookup x tbl with Some n => n | None => 0 end))
  else lookup k tbl.
Proof.
  induction tbl as [|[k' n] tbl IH]; simpl.
  - destruct (str_eqb k x); reflexivity.
  - destruct (str_eqb x k') eqn:E; simpl.
    + apply str_eqb_eq in E. subst k'.
      destruct (str_eqb k x); reflexivity.
    + rewrite IH. destruct (str_eqb k x) eqn:E1; [|reflexivity].
      apply str_eqb_eq in E1. subst k. rewrite E. reflexivity.
Qed.

Lemma bump_keys (x : str) (tbl : series) :
  map fst (bump x tbl) =
  match lookup x tbl with
  | Some _ => map fst tbl
  | None => map fst tbl ++ [x]
  end.
Proof.
  induction tbl as [|[k' n] tbl IH]; simpl; [reflexivity|].
  destruct (str_eqb x k') eqn:E; simpl; [reflexivity|].
  rewrite IH. destruct (lookup x tbl); reflexivity.
Qed.

Lemma value_count_snoc (xs : list str) (x : str) :
  value_count (xs ++ [x]) = bump x (value_count xs).
Proof. unfold value_count. rewrite fold_left_app. reflexivity. Qed.

Lemma value_count_lookup (xs : list str) (k : str) :
  lookup k (value_count xs) =
  if count k xs =? 0 then None else Some (count k xs).
Proof.
  induction xs as [|x xs IH] using rev_ind; [reflexivity|].
  rewrite value_count_snoc, bump_lookup, count_app. simpl.
  destruct (str_eqb k x) eqn:E.
  - apply str_eqb_eq in E. subst k. rewrite IH.
    replace (count x xs + (1 + 0)) with (S (count x xs)) by lia.
    destruct (count x xs); reflexivity.
  - rewrite IH. replace (count k xs + (0 + 0)) with (count k xs) by lia.
    reflexivity.
Qed.

Lemma value_count_keys_NoDup (xs : list str) :
  NoDup (map fst (value_count xs)).
Proof.
  induction xs as [|x xs IH] using rev_ind; [constructor|].
  rewrite value_count_snoc, bump_keys.
  destruct (lookup x (value_count xs)) eqn:E; [assumption|].
  apply lookup_None in E.
  apply NoDup_app; [assumption | repeat constructor; simpl; tauto |].
  intros a Ha [<-|[]]. contradiction.
Qed.

Lemma value_count_In (xs : list str) (k : str) (n : nat) :
  In (k, n) (value_count xs) <-> In k xs /\ n = count k xs.
Proof.
  split.
  - intros H. apply In_lookup in H; [|apply value_count_keys_NoDup].
    rewrite value_count_lookup in H.
    destruct (count k xs =? 0) eqn:E; [discriminate|].
    apply Nat.eqb_neq in E. inversion H; subst.
    split; [apply count_pos; lia | reflexivity].
  - intros [H ->]. apply lookup_In. rewrite value_count_lookup.
    apply count_pos in H.
    replace (count k xs =? 0) with false
      by (symmetry; apply Nat.eqb_neq; lia).
    reflexivity.
Qed.

Lemma StronglySorted_impl_in {A : Type} (R R' : A -> A -> Prop) (l : list A) :
  (forall a b, In a l -> In b l -> R a b -> R' a b) ->
  StronglySorted R l -> StronglySorted R' l.
Proof.
  induction l as [|h l IH]; intros HR SS; [constructor|].
  inversion SS; subst. constructor.
  - apply IH; [|assumption]. intros a b Ha Hb. apply HR; right; assumption.
  - rewrite Forall_forall in *. intros b Hb.
    apply HR; [left; reflexivity | right; assumption | auto].
Qed.

Lemma bump_Forall (P : str -> Prop) (x : str) (tbl : series) :
  Forall (fun a => P (fst a)) tbl -> (lookup x tbl = None -> P x) ->
  Forall (fun a => P (fst a)) (bump x tbl).
Proof.
  intros H Hx. apply Forall_map. rewrite bump_keys.
  apply Forall_map in H.
  destruct (lookup x tbl); [assumption|].
  apply Forall_app. split; [assumption|]. constructor; auto.
Qed.

Lemma bump_sorted (f : str -> nat) (x : str) (tbl : series) :
  StronglySorted (fun a b => f (fst a) < f (fst b)) tbl ->
  (lookup x tbl = None -> Forall (fun a => f (fst a) < f x) tbl) ->
  StronglySorted (fun a b => f (fst a) < f (fst b)) (bump x tbl).
Proof.
  induction tbl as [|[k n] tbl IH]; intros SS Hx; simpl.
  - repeat constructor.
  - inversion SS; subst. simpl in Hx. destruct (str_eqb x k) eqn:E.
    + constructor; assumption.
    + constructor.
      * apply IH; [assumption|]. intros Hn. specialize (Hx Hn).
        inversion Hx; assumption.
      * apply (bump_Forall (fun k' => f k < f k')); [assumption|].
        intros Hn. specialize (Hx Hn). inversion Hx; assumption.
Qed.

(** The counting pass lists the values in the order they are first seen. *)
Lemma value_count_first_seen (xs : list str) :
  StronglySorted
    (fun a b => first_index (fst a) xs < first_index (fst b) xs)
    (value_count xs).
Proof.
  induction xs as [|x xs IH] using rev_ind; [constructor|].
  rewrite value_count_snoc.
  assert (Hkeys : forall a, In a (value_count xs) -> In (fst a) xs).
  { intros [k n] H. apply value_count_In in H. tauto. }
  apply (bump_sorted (fun k => first_index k (xs ++ [x]))).
  - revert IH. apply StronglySorted_impl_in. intros a b Ha Hb.
    rewrite !first_index_app_in by auto. tauto.
  - intros Hn. rewrite value_count_lookup in Hn.
    destruct (count x xs =? 0) eqn:C; [|discriminate].
    apply Nat.eqb_eq in C.
    assert (Hout : ~ In x xs) by (rewrite <- count_pos; lia).
    rewrite Forall_forall. intros a Ha.
    rewrite (first_index_app_out x xs [x] Hout).
    rewrite (first_index_app_in (fst a) xs [x] (Hkeys a Ha)).
    apply Hkeys, first_index_lt in Ha. lia.
Qed.

(** ** The sort by count *)

Lemma insert_desc_perm (row : str * nat) (l : series) :
  Permutation (insert_desc row l) (row :: l).
Proof.
  induction l as [|h l IH]; simpl; [reflexivity|].
  destruct (snd h <=? snd row); [reflexivity|].
  rewrite IH. apply perm_swap.
Qed.

Lemma sort_values_desc_perm (l : series) :
  Permutation (sort_values_desc l) l.
Proof.
  induction l as [|h l IH]; simpl; [reflexivity|].
  rewrite insert_desc_perm. constructor. exact IH.
Qed.

Lemma insert_desc_sorted (R : str * nat -> str * nat -> Prop)
      (row : str * nat) (l : series) :
  StronglySorted (by_count R) l -> Forall (R row) l ->
  StronglySorted (by_count R) (insert_desc row l).
Proof.
  induction l as [|h l IH]; intros SS HR; simpl.
  - repeat constructor.
  - inversion SS; subst. inversion HR; subst.
    destruct (snd h <=? snd row) eqn:E.
    + apply Nat.leb_le in E. constructor; [assumption|].
      constructor.
      * unfold by_count. destruct (Nat.eq_dec (snd h) (snd row)); [right|left];
          [split; [congruence | assumption] | lia].
      * rewrite Forall_forall in *. intros b Hb.
        match goal with F : forall x, In x l -> by_count R h x |- _ =>
          specialize (F b Hb); destruct F as [F|[F1 F2]] end;
          unfold by_count.
        -- left. lia.
        -- destruct (Nat.eq_dec (snd b) (snd row)); [right | left; lia].
           split; [congruence | auto].
    + apply Nat.leb_gt in E. constructor; [apply IH; assumption|].
      rewrite (insert_desc_perm row l). constructor; [|assumption].
      left. exact E.
Qed.

Lemma sort_values_desc_sorted (R : str * nat -> str * nat -> Prop)
      (l : series) :
  StronglySorted R l -> StronglySorted (by_count R) (sort_values_desc l).
Proof.
  induction l as [|h l IH]; intros SS; simpl; [constructor|].
  inversion SS; subst. apply insert_desc_sorted; [apply IH; assumption|].
  rewrite sort_values_desc_perm. assumption.
Qed.

(** ** [value_counts] *)

Lemma value_counts_perm (xs : list str) :
  Permutation (value_counts xs) (value_count xs).
Proof. apply sort_values_desc_perm. Qed.

Lemma value_counts_keys_NoDup (xs : list str) :
  NoDup (map fst (value_counts xs)).
Proof.
  apply (Permutation_NoDup (l := map fst (value_count xs))).
  - apply Permutation_map. symmetry. apply value_counts_perm.
  - apply value_count_keys_NoDup.
Qed.

Lemma value_counts_In (xs : list str) (k : str) (n : nat) :
  In (k, n) (value_counts xs) <-> In k xs /\ n = count k xs.
Proof.
  rewrite <- value_count_In. split; apply Permutation_in;
    [|symmetry]; apply value_counts_perm.
Qed.

Lemma value_counts_lookup (xs : list str) (k : str) :
  lookup k (value_counts xs) =
  if count k xs =? 0 then None else Some (count k xs).
Proof.
  destruct (count k xs =? 0) eqn:E.
  - apply Nat.eqb_eq in E. apply lookup_None. intros H.
    apply in_map_iff in H. destruct H as [[k' n] [Hk H]]. simpl in Hk.
    subst k'. apply value_counts_In in H. destruct H as [H _].
    apply count_pos in H. lia.
  - apply Nat.eqb_neq in E. apply In_lookup; [apply value_counts_keys_NoDup|].
    apply value_counts_In. split; [apply count_pos; lia | reflexivity].
Qed.

Lemma value_counts_ranked (xs : list str) : ranked xs (value_counts xs).
Proof.
  split; [split|].
  - apply value_counts_keys_NoDup.
  - apply value_counts_In.
  - change (StronglySorted
              (by_count (fun a b => first_index (fst a) xs
                                    < first_index (fst b) xs))
              (sort_values_desc (value_count xs))).
    apply sort_values_desc_sorted, value_count_first_seen.
Qed.

Lemma value_counts_nil (xs : list str) : value_counts xs = [] <-> xs = [].
Proof.
  split.
  - intros H. destruct xs as [|x xs]; [reflexivity|]. exfalso.
    assert (Hin : In (x, count x (x :: xs)) (value_counts (x :: xs)))
      by (apply value_counts_In; split; [left|]; reflexivity).
    rewrite H in Hin. destruct Hin.
  - intros ->. reflexivity.
Qed.

(** The ranking rule leaves one listing only. *)
Lemma ranked_unique (xs : list str) (l l' : series) :
  ranked xs l -> ranked xs l' -> l = l'.
Proof.
  intros [[ND G] SS] [[ND' G'] SS'].
  assert (Hsame : forall a, In a l <-> In a l').
  { intros [k n]. rewrite G, G'. tauto. }
  clear G G'. apply (NoDup_map_inv fst) in ND, ND'.
  revert l' ND' SS' Hsame.
  induction l as [|h l IH]; intros [|h' l'] ND' SS' Hsame.
  - reflexivity.
  - exfalso. apply (Hsame h'). left. reflexivity.
  - exfalso. apply (Hsame h). left. reflexivity.
  - inversion SS; subst. inversion SS'; subst.
    inversion ND; subst. inversion ND'; subst.
    assert (h = h').
    { destruct (proj1 (Hsame h) (or_introl eq_refl)) as [E|Hin]; [auto|].
      destruct (proj2 (Hsame h') (or_introl eq_refl)) as [E|Hin']; [auto|].
      exfalso.
      repeat match goal with F : Forall _ _ |- _ =>
        rewrite Forall_forall in F end.
      match goal with
        F : forall x, In x l -> before_first_seen xs h x,
        F' : forall x, In x l' -> before_first_seen xs h' x |- _ =>
          specialize (F h' Hin'); specialize (F' h Hin);
          unfold before_first_seen in F, F'; lia
      end. }
    subst h'. f_equal. apply IH; try assumption.
    intros a. split; intros Ha.
    + destruct (proj1 (Hsame a) (or_intror Ha)) as [E|Hin]; [|assumption].
      subst a. contradiction.
    + destruct (proj2 (Hsame a) (or_intror Ha)) as [E|Hin]; [|assumption].
      subst a. contradiction.
Qed.

(** ** Reading the dictionaries back *)

Lemma rows_to_dict (s : series) : rows (to_dict s) = Some s.
Proof.
  unfold to_dict, rows. induction s as [|[k n] s IH]; simpl; [reflexivity|].
  rewrite IH. reflexivity.
Qed.

Lemma reported_to_dict (k : str) (s : series) :
  reported k (to_dict s) = lookup k s.
Proof.
  unfold reported, to_dict, pyget.
  induction s as [|[k' n] s IH]; simpl; [reflexivity|].
  destruct (str_eqb k k'); [reflexivity | exact IH].
Qed.

Lemma to_dict_inj (s s' : series) : to_dict s = to_dict s' -> s = s'.
Proof.
  intros H. apply (f_equal rows) in H. rewrite !rows_to_dict in H.
  congruence.
Qed.

Lemma summary_count_lookup (k : str) (df : list entry) :
  summary_count k df = lookup k (value_counts (column status df)).
Proof. unfold summary_count. simpl. apply reported_to_dict. Qed.

Lemma anomaly_count_lookup (k : str) (df : list entry) :
  anomaly_count k df = lookup k (error_counts df).
Proof.
  unfold anomaly_count, detect_anomalies.
  destruct (error_counts df) eqn:E; simpl; [reflexivity|].
  rewrite reported_to_dict. reflexivity.
Qed.

Lemma column_filter (p : str -> bool) (df : list entry) :
  column status (filter (fun e => p (status e)) df)
  = filter p (column status df).
Proof.
  unfold column. induction df as [|e df IH]; simpl; [reflexivity|].
  destruct (p (status e)); simpl; rewrite IH; reflexivity.
Qed.

Lemma error_counts_filter (df : list entry) :
  error_counts df
  = value_counts (filter (startswith (txt "5")) (column status df)).
Proof. unfold error_counts. rewrite column_filter. reflexivity. Qed.

Lemma filter_nil_iff {A : Type} (p : A -> bool) (l : list A) :
  filter p l = [] <-> existsb p l = false.
Proof.
  induction l as [|a l IH]; simpl; [tauto|].
  destruct (p a); simpl; [split; discriminate | exact IH].
Qed.

Lemma existsb_column (p : str -> bool) (df : list entry) :
  existsb p (column status df) = existsb (fun e => p (status e)) df.
Proof.
  unfold column. induction df as [|e df IH]; simpl; [reflexivity|].
  rewrite IH. reflexivity.
Qed.

(** ** Substrings *)

Lemma startswith_spec (p s : str) :
  startswith p s = true <-> exists rest, s = p ++ rest.
Proof.
  revert s. induction p as [|a p IH]; intros s; simpl.
  - split; [intros _; exists s; reflexivity | reflexivity].
  - destruct s as [|b s].
    + split; [discriminate | intros [rest H]; discriminate].
    + rewrite andb_true_iff, char_eqb_eq, IH. split.
      * intros [-> [rest ->]]. exists rest. reflexivity.
      * intros [rest H]. inversion H; subst. split; [reflexivity|].
        exists rest. reflexivity.
Qed.

Lemma contains_spec (needle hay : str) :
  contains needle hay = true <-> exists pre post, hay = pre ++ needle ++ post.
Proof.
  induction hay as [|a hay IH]; simpl.
  - rewrite orb_false_r, startswith_spec. split.
    + intros [rest H]. exists [], rest. exact H.
    + intros [pre [post H]]. destruct pre; simpl in H.
      * exists post. exact H.
      * discriminate.
  - rewrite orb_true_iff, startswith_spec, IH. split.
    + intros [[rest H]|[pre [post H]]].
      * exists [], rest. exact H.
      * exists (a :: pre), post. rewrite H. reflexivity.
    + intros [[|b pre] [post H]]; simpl in H.
      * left. exists post. exact H.
      * right. inversion H; subst. exists pre, post. reflexivity.
Qed.


Lemma contains_lower (word q : str) :
  contains word (lower q) = true <-> occurs_ignoring_case word q.
Proof.
  rewrite contains_spec. unfold occurs_ignoring_case, lower. split.
  - intros [pre [post H]].
    apply map_eq_app in H. destruct H as (q1 & q23 & -> & H1 & H23).
    apply map_eq_app in H23. destruct H23 as (q2 & q3 & -> & H2 & H3).
    exists q1, q2, q3. split; [reflexivity | assumption].
  - intros (q1 & q2 & q3 & -> & H).
    exists (map lower_char q1), (map lower_char q3).
    rewrite !map_app, H. reflexivity.
Qed.

(** ** The ordering said of values and places *)

Lemma count_count_occ (k : str) (xs : list str) :
  count k xs = count_occ str_eq_dec xs k.
Proof.
  induction xs as [|x xs IH]; simpl; [reflexivity|].
  destruct (str_eq_dec x k) as [->|N].
  - rewrite str_eqb_refl, IH. reflexivity.
  - replace (str_eqb k x) with false
      by (symmetry; apply str_eqb_neq; congruence).
    exact IH.
Qed.












(** * The claims *)

(** ** Line parser *)

Lemma line_after_text_not_conforming : ~ conforms line_after_text.
Proof.
  intros [e [C E]].
  pose proof (parse_line_render e [] C) as H.
  rewrite app_nil_r, <- E in H.
  assert (P : parse_line line_after_text = Some entry_ok)
    by (vm_compute; reflexivity).
  rewrite P in H. inversion H; subst e.
  vm_compute in E. discriminate.
Qed.

(** C1, as stated, fails: a line that does not satisfy the grammar, because
    text stands before its address, still gives a record. *)
Lemma parse_accepts_line_after_text :
  ~ (forall line, ~ conforms line -> parse_line line = None).
Proof.
  intros H. specialize (H line_after_text line_after_text_not_conforming).
  vm_compute in H. discriminate.
Qed.

(** C1 (amended): for every input line no part of which satisfies the
    grammar, parsing gives no record, the loop adds nothing to the entries
    for it, and the lines before and after it are parsed as if it were not
    there.  The matcher is a total function: there is no error to raise. *)
Theorem parse_drops_line_without_conforming_part (line : str) :
  ~ conforms_within line ->
  parse_line line = None /\
  (forall entries, parse_step entries line = entries) /\
  (forall before after,
      parse_lines (before ++ line :: after)
      = parse_lines before ++ parse_lines after).
Proof.
  intros H. apply parse_line_None in H. split; [assumption|]. split.
  - intros entries. unfold parse_step. rewrite H. reflexivity.
  - intros before after. rewrite parse_lines_app. f_equal.
    change (line :: after) with ([line] ++ after).
    rewrite parse_lines_app, parse_lines_records. simpl. rewrite H.
    reflexivity.
Qed.

Lemma parse_drops_line_without_conforming_part_witness :
  ~ conforms_within line_missing_quote /\
  parse_line line_missing_quote = None /\
  (forall entries, parse_step entries line_missing_quote = entries) /\
  (forall before after,
      parse_lines (before ++ line_missing_quote :: after)
      = parse_lines before ++ parse_lines after).
Proof.
  assert (H : ~ conforms_within line_missing_quote)
    by (apply parse_line_None; vm_compute; reflexivity).
  split; [exact H|].
  apply (@parse_drops_line_without_conforming_part line_missing_quote H).
Defined.

(** The malformed lines the specification names give no record. *)
Example parse_rejects_named_malformations :
  map parse_line
      [line_missing_quote; line_long_status; line_short_status;
       line_two_tokens; line_four_tokens; line_malformed]
  = [None; None; None; None; None; None].
Proof. vm_compute. reflexivity. Qed.

Lemma quotes_escaped_bounded (n : nat) (s : str) :
  length s <= n -> is_quoted s = true -> quotes_escaped s = true.
Proof.
  revert s. induction n as [|n IH]; intros [|c s] L Q; simpl in *;
    try reflexivity; try lia.
  unfold is_quoted in Q. simpl in Q. apply andb_prop in Q.
  destruct Q as [Qc Qs].
  destruct (char_eqb c backslash).
  - destruct s as [|d s]; [reflexivity|].
    simpl in Qs. apply andb_prop in Qs. destruct Qs as [_ Qs].
    apply IH; [simpl in L; lia | exact Qs].
  - rewrite Qc. simpl. apply IH; [lia | exact Qs].
Qed.

(** The narrow reading is within the words of the specification. *)
Lemma conforms_satisfies_grammar (line : str) :
  conforms line -> satisfies_grammar line.
Proof.
  intros [e [C ->]]. exists (WordedLine e [space] [space]).
  split; [|reflexivity].
  apply conforming_fields in C.
  destruct C as (A1 & A2 & A3 & A4 & A5 & A6 & A7 & A8 & A9 & A10).
  unfold worded_ok. simpl.
  rewrite A1, A2, A4, A5, A6, A7, A8. simpl.
  unfold is_timestamp in A3. apply andb_prop in A3. destruct A3 as [_ A3].
  unfold is_bracket_free. rewrite A3. simpl.
  rewrite (@quotes_escaped_bounded _ (referrer e) (le_n _) A9).
  rewrite (@quotes_escaped_bounded _ (agent e) (le_n _) A10). reflexivity.
Qed.

(** C2, as stated, fails: a line whose request line has a tab between
    method and url satisfies the grammar as the specification words it
    (three tokens separated by white space) and gives no record. *)
Lemma parse_rejects_tab_separated_request :
  ~ (forall line,
        satisfies_grammar line ->
        exists e, parse_line line = Some e /\ render e = line).
Proof.
  intros H.
  destruct (H (render_worded line_tab_request)) as [e [P _]].
  - exists line_tab_request. split; reflexivity.
  - vm_compute in P. discriminate.
Qed.

(** Likewise a quote that a backslash escapes inside the agent ends the
    agent: the record is cut there and does not render the line. *)
Example parse_cuts_agent_at_escaped_quote :
  satisfies_grammar (render_worded line_escaped_quote) /\
  exists e,
    parse_line (render_worded line_escaped_quote) = Some e /\
    agent e = txt "a" ++ [backslash] /\
    render e <> render_worded line_escaped_quote.
Proof.
  split.
  - exists line_escaped_quote. split; reflexivity.
  - eexists. split; [vm_compute; reflexivity|]. split; [reflexivity|].
    vm_compute. discriminate.
Qed.

(** C2 (amended): a line that satisfies the grammar with one space between
    its fields and between the tokens of the request line, a timestamp that
    is not empty, and no quote character inside referrer and agent, gives a
    record; however the line is read against that grammar, its ten fields
    are the fields of that record, and rendering the record gives the line
    back. *)
Theorem parse_conforming_line_round_trip (line : str) :
  conforms line ->
  exists e,
    parse_line line = Some e /\ conforming e = true /\ render e = line /\
    forall e', conforming e' = true -> line = render e' -> e' = e.
Proof.
  intros [e [C ->]]. exists e.
  pose proof (parse_line_render e [] C) as H. rewrite app_nil_r in H.
  repeat split; try assumption.
  intros e' C' E.
  destruct (render_unique e e' [] [] C C') as [<- _];
    [rewrite E; reflexivity | reflexivity].
Qed.

Lemma parse_conforming_line_round_trip_witness :
  conforms line_ok /\
  exists e,
    parse_line line_ok = Some e /\ conforming e = true /\
    render e = line_ok /\
    forall e', conforming e' = true -> line_ok = render e' -> e' = e.
Proof.
  assert (H : conforms line_ok)
    by (exists entry_ok; split; vm_compute; reflexivity).
  split; [exact H|].
  apply (@parse_conforming_line_round_trip line_ok H).
Defined.

(** C9: a line one part of which satisfies the grammar gives a record; the
    record is a conforming one whose rendering is a part of the line, the
    leftmost such part, and text appended to a conforming line leaves its
    record unchanged. *)
Theorem parse_finds_conforming_part (pre post : str) (e : entry) :
  conforming e = true ->
  (exists e' pre' post',
      parse_line (pre ++ render e ++ post) = Some e' /\
      conforming e' = true /\
      pre ++ render e ++ post = pre' ++ render e' ++ post' /\
      length pre' <= length pre) /\
  parse_line (render e ++ post) = Some e.
Proof.
  intros C. split; [|apply parse_line_render; assumption].
  destruct (parse_line (pre ++ render e ++ post)) as [e'|] eqn:P.
  - destruct (parse_line_sound _ P) as [C' (pre' & post' & E & Hleft)].
    exists e', pre', post'. repeat split; try assumption.
    apply (Hleft pre e post C eq_refl).
  - exfalso. apply parse_line_None in P. apply P.
    exists pre, e, post. tauto.
Qed.

Lemma parse_finds_conforming_part_witness :
  conforming entry_ok = true /\
  (exists e' pre' post',
      parse_line (txt "junk " ++ render entry_ok ++ txt " trailing") = Some e' /\
      conforming e' = true /\
      txt "junk " ++ render entry_ok ++ txt " trailing"
      = pre' ++ render e' ++ post' /\
      length pre' <= length (txt "junk ")) /\
  parse_line (render entry_ok ++ txt " trailing") = Some entry_ok.
Proof.
  assert (H : conforming entry_ok = true) by reflexivity.
  split; [exact H|].
  apply (@parse_finds_conforming_part (txt "junk ") (txt " trailing") entry_ok H).
Defined.

(** ** Record store *)

(** C3, as stated, fails: what [parse_nginx_logs] returns for a missing
    file is what it returns for a readable file with no line in it. *)
Lemma missing_log_returns_what_empty_log_returns :
  ~ (fst (parse_nginx_logs LOG_LIMIT None)
     <> fst (parse_nginx_logs LOG_LIMIT (Some []))).
Proof. intros H. apply H. reflexivity. Qed.

(** C3 (amended): for a missing file [parse_nginx_logs] shows the panel
    that names the file and returns the empty list, which is also what it
    returns for a readable file none of whose lines parses; the main
    program then shows the same last panel and exits with status 1 in both
    cases, the first panel being the only difference. *)
Theorem missing_log_returns_empty_store (limit : Z) (lines : list str) :
  (forall l, In l lines -> parse_line l = None) ->
  parse_nginx_logs limit None = ([], [LogFileNotFound ACCESS_LOG]) /\
  parse_nginx_logs limit (Some lines) = ([], []) /\
  fst (parse_nginx_logs limit None)
  = fst (parse_nginx_logs limit (Some lines)) /\
  startup None = ([LogFileNotFound ACCESS_LOG; NoLogsParsed], Exit 1) /\
  startup (Some lines) = ([NoLogsParsed], Exit 1).
Proof.
  intros H.
  assert (E : forall n, parse_lines (slice_from n lines) = []).
  { intros n. apply parse_lines_none. intros l Hl. apply H.
    apply (slice_from_In _ _ _ Hl). }
  unfold startup, parse_nginx_logs. rewrite !E. simpl.
  repeat split; reflexivity.
Qed.

Lemma missing_log_returns_empty_store_witness :
  (forall l, In l [line_malformed] -> parse_line l = None) /\
  parse_nginx_logs LOG_LIMIT None = ([], [LogFileNotFound ACCESS_LOG]) /\
  parse_nginx_logs LOG_LIMIT (Some [line_malformed]) = ([], []) /\
  fst (parse_nginx_logs LOG_LIMIT None)
  = fst (parse_nginx_logs LOG_LIMIT (Some [line_malformed])) /\
  startup None = ([LogFileNotFound ACCESS_LOG; NoLogsParsed], Exit 1) /\
  startup (Some [line_malformed]) = ([NoLogsParsed], Exit 1).
Proof.
  assert (H : forall l, In l [line_malformed] -> parse_line l = None).
  { intros l [<-|[]]. vm_compute. reflexivity. }
  split; [exact H|].
  apply (@missing_log_returns_empty_store LOG_LIMIT [line_malformed] H).
Defined.

(** C5 fails at limit 0: the slice [lines[-0:]] is the whole list, so every
    line of the source is parsed, and a source of two conforming lines gives
    two records where [min(0, 2)] allows none. *)
Theorem limit_zero_keeps_every_line :
  (forall lines, fst (parse_nginx_logs 0 (Some lines)) = records_of lines) /\
  fst (parse_nginx_logs 0 (Some [line_ok; line_ok])) = [entry_ok; entry_ok] /\
  ~ (length (fst (parse_nginx_logs 0 (Some [line_ok; line_ok])))
     <= Nat.min (Z.to_nat 0) (length [line_ok; line_ok])).
Proof.
  split; [|split].
  - intros lines. simpl. rewrite slice_from_zero. apply parse_lines_records.
  - vm_compute. reflexivity.
  - vm_compute. lia.
Qed.

(** ** Aggregator *)

Lemma summary_rows_status (df : list entry) :
  summary_rows (txt "status_counts") df
  = Some (value_counts (column status df)).
Proof. unfold summary_rows. simpl. apply rows_to_dict. Qed.

Lemma summary_rows_top_ips (df : list entry) :
  summary_rows (txt "top_ips") df
  = Some (firstn 3 (value_counts (column ip df))).
Proof. unfold summary_rows. simpl. apply rows_to_dict. Qed.

Lemma summary_rows_top_urls (df : list entry) :
  summary_rows (txt "top_urls") df
  = Some (firstn 3 (value_counts (column url df))).
Proof. unfold summary_rows. simpl. apply rows_to_dict. Qed.




(** ** Anomaly detector *)

(** C4, as stated, fails: on the statuses 500, 500, 503 the result is not
    the mapping of the two codes to their counts. *)
Lemma detect_anomalies_not_flat :
  detect_anomalies store_5xx <> to_dict [(txt "500", 2); (txt "503", 1)].
Proof. vm_compute. discriminate. Qed.

(** C4 (amended): [detect_anomalies] returns the empty dictionary when no
    status of the store starts with 5, and otherwise a dictionary with the
    one key [5xx_errors], whose value maps each status code that starts
    with 5 to its count and has no other code; on the statuses 500, 500,
    503 that value is 500: 2, 503: 1. *)
Theorem detect_anomalies_nests_5xx_counts (df : list entry) :
  detect_anomalies df
  = (if existsb (fun e => startswith (txt "5") (status e)) df
     then PyDict [(txt "5xx_errors", to_dict (error_counts df))]
     else PyDict []) /\
  ranked (filter (startswith (txt "5")) (column status df))
         (error_counts df) /\
  Forall (fun row => startswith (txt "5") (fst row) = true)
         (error_counts df) /\
  detect_anomalies store_5xx
  = PyDict [(txt "5xx_errors", to_dict [(txt "500", 2); (txt "503", 1)])].
Proof.
  split; [|split; [|split]].
  - unfold detect_anomalies. rewrite <- existsb_column.
    destruct (existsb (startswith (txt "5")) (column status df)) eqn:E.
    + destruct (error_counts df) eqn:C; [|reflexivity].
      rewrite error_counts_filter in C. apply value_counts_nil in C.
      apply filter_nil_iff in C. congruence.
    + apply filter_nil_iff in E. rewrite error_counts_filter, E.
      reflexivity.
  - rewrite error_counts_filter. apply value_counts_ranked.
  - rewrite error_counts_filter. apply Forall_forall. intros [k n] H.
    apply value_counts_In in H. destruct H as [H _].
    apply filter_In in H. tauto.
  - vm_compute. reflexivity.
Qed.

Lemma anomaly_count_cases (df : list entry) (k : str) :
  anomaly_count k df
  = if startswith (txt "5") k then summary_count k df else None.
Proof.
  rewrite anomaly_count_lookup, summary_count_lookup, error_counts_filter.
  rewrite !value_counts_lookup, count_filter.
  destruct (startswith (txt "5") k); reflexivity.
Qed.

Lemma starts_with_five (k : str) :
  startswith (txt "5") k = true <-> exists rest, k = "5"%char :: rest.
Proof. apply (startswith_spec (txt "5") k). Qed.

(** C10: for a status code whose first character is 5, the count that
    [detect_anomalies] reports is the count that [generate_summary] lists
    for it under [status_counts], which is the number of records with that
    status, if any; [detect_anomalies] reports no code with another first
    character.  So on the statuses 500, 500, 503 both report 2 for 500,
    and for 200 the summary alone has a count. *)
Theorem anomalies_agree_with_summary (df : list entry) (k : str) :
  (forall rest,
      anomaly_count ("5"%char :: rest) df
      = summary_count ("5"%char :: rest) df) /\
  (forall n, anomaly_count k df = Some n -> exists rest, k = "5"%char :: rest) /\
  summary_count k df
  = match count_occ str_eq_dec (map status df) k with
    | 0 => None
    | S n => Some (S n)
    end /\
  anomaly_count (txt "500") store_5xx = Some 2 /\
  summary_count (txt "500") store_5xx = Some 2 /\
  anomaly_count (txt "200") (with_status "200" :: store_5xx) = None /\
  summary_count (txt "200") (with_status "200" :: store_5xx) = Some 1.
Proof.
  split; [|split; [|split]].
  - intros rest. rewrite anomaly_count_cases.
    replace (startswith (txt "5") ("5"%char :: rest)) with true;
      [reflexivity|].
    symmetry. apply starts_with_five. exists rest. reflexivity.
  - intros n H. rewrite anomaly_count_cases in H.
    destruct (startswith (txt "5") k) eqn:E; [|discriminate].
    apply starts_with_five. exact E.
  - rewrite summary_count_lookup, value_counts_lookup, count_count_occ.
    change (column status df) with (map status df).
    destruct (count_occ str_eq_dec (map status df) k); reflexivity.
  - vm_compute. repeat split; reflexivity.
Qed.

(** ** Question loop *)

Lemma code_inj (a b : ascii) : code a = code b -> a = b.
Proof.
  unfold code. intros H.
  rewrite <- (ascii_nat_embedding a), <- (ascii_nat_embedding b), H.
  reflexivity.
Qed.

Lemma lower_char_cases (c : ascii) :
  (65 <= code c <= 90 /\ code (lower_char c) = code c + 32) \/
  (192 <= code c <= 222 /\ code (lower_char c) = code c + 32) \/
  (~ 65 <= code c <= 90 /\ lower_char c = c).
Proof.
  pose proof (nat_ascii_bounded c) as B. unfold lower_char, code in *.
  destruct (65 <=? nat_of_ascii c) eqn:A1;
    destruct (nat_of_ascii c <=? 90) eqn:A2;
    destruct (192 <=? nat_of_ascii c) eqn:A3;
    destruct (nat_of_ascii c <=? 222) eqn:A4;
    destruct (nat_of_ascii c =? 215) eqn:A5; simpl;
    rewrite ?Nat.leb_le, ?Nat.leb_gt, ?Nat.eqb_eq, ?Nat.eqb_neq in *;
    try (rewrite nat_ascii_embedding by lia);
    try lia;
    try (left; lia); try (right; left; lia);
    try (right; right; split; [lia | reflexivity]).
Qed.

Lemma lower_char_small (c w : ascii) :
  97 <= code w <= 122 -> (lower_char c = w <-> same_letter c w).
Proof.
  intros W. unfold same_letter.
  destruct (lower_char_cases c) as [[R E]|[[R E]|[R E]]].
  - split.
    + intros <-. right. split; [assumption | symmetry; assumption].
    + intros [->|[_ H]]; [lia|]. apply code_inj. lia.
  - split.
    + intros <-. lia.
    + intros [->|[H _]]; lia.
  - rewrite E. split; [auto|]. intros [H|[H _]]; [assumption | tauto].
Qed.

Lemma lower_small (mid word : str) :
  small_letters word -> (lower mid = word <-> Forall2 same_letter mid word).
Proof.
  unfold small_letters, lower. revert mid.
  induction word as [|w word IH]; intros mid S.
  - split.
    + intros H. apply map_eq_nil in H. subst. constructor.
    + intros H. inversion H. reflexivity.
  - inversion S as [|? ? Sw Sword]; subst. split.
    + destruct mid as [|c mid]; simpl; [discriminate|].
      intros H. injection H as Hc Hm. constructor.
      * apply lower_char_small; [exact Sw | exact Hc].
      * apply IH; [exact Sword | exact Hm].
    + intros H. inversion H as [|c ? mid' ? Hc Hm]; subst. simpl.
      f_equal.
      * apply lower_char_small; [exact Sw | exact Hc].
      * apply IH; [exact Sword | exact Hm].
Qed.

Lemma occurs_any_case (word q : str) :
  small_letters word ->
  (contains word (lower q) = true <-> occurs_in_any_case word q).
Proof.
  intros S. rewrite contains_lower.
  unfold occurs_ignoring_case, occurs_in_any_case.
  split; intros (pre & mid & post & E & H); exists pre, mid, post;
    (split; [exact E|]); apply (lower_small mid S); exact H.
Qed.

Lemma table_words_small : Forall small_letters table_words.
Proof.
  unfold table_words, small_letters.
  repeat constructor; vm_compute; repeat constructor.
Qed.

(** C8: the anomaly panel is shown exactly when the lower-cased question
    contains "anomaly", that is when the question contains it with each
    letter small or capital; the tables are shown exactly when the question
    contains one of "status", "ip", "url", "table", "top" with each letter
    small or capital; each of the four combinations of the two tests is met
    by some question, as the samples in capitals show. *)
Theorem keyword_tests (q : str) :
  (shows_anomalies q = true <->
   exists pre post, lower q = pre ++ txt "anomaly" ++ post) /\
  (shows_anomalies q = true <-> occurs_in_any_case (txt "anomaly") q) /\
  (shows_tables q = true <->
   exists word,
     In word [txt "status"; txt "ip"; txt "url"; txt "table"; txt "top"] /\
     occurs_in_any_case word q) /\
  (forall a t : bool,
      exists q', shows_anomalies q' = a /\ shows_tables q' = t) /\
  (shows_anomalies (txt "Any ANOMALY today?") = true /\
   shows_tables (txt "Any ANOMALY today?") = false) /\
  (shows_anomalies (txt "Show me the TOP Status codes") = false /\
   shows_tables (txt "Show me the TOP Status codes") = true) /\
  (shows_anomalies (txt "Anomaly by IP") = true /\
   shows_tables (txt "Anomaly by IP") = true) /\
  (shows_anomalies (txt "HELLO") = false /\
   shows_tables (txt "HELLO") = false).
Proof.
  refine (conj _ (conj _ (conj _ (conj _ _)))).
  - apply contains_spec.
  - apply occurs_any_case. vm_compute. repeat constructor.
  - unfold shows_tables. rewrite existsb_exists.
    pose proof table_words_small as S. rewrite Forall_forall in S.
    split; intros [w [Hw H]]; exists w; (split; [exact Hw|]);
      apply (occurs_any_case q (S w Hw)); exact H.
  - intros [|] [|].
    + exists (txt "Anomaly by IP"). split; reflexivity.
    + exists (txt "Any ANOMALY today?"). split; reflexivity.
    + exists (txt "Show me the TOP Status codes"). split; reflexivity.
    + exists (txt "HELLO"). split; reflexivity.
  - vm_compute. repeat split; reflexivity.
Qed.

(** ** The pipeline on the sample of the specification *)

Example pipeline_on_sample :
  let lines := [ log_line "GET /a HTTP/1.1" "200";
                 log_line "GET /b HTTP/1.1" "500";
                 line_malformed ] in
  let df := fst (parse_nginx_logs 10 (Some lines)) in
  length df = 2 /\
  pyget (txt "total_requests") (generate_summary df) = Some (PyInt 2) /\
  summary_rows (txt "status_counts") df
  = Some [(txt "200", 1); (txt "500", 1)] /\
  detect_anomalies df
  = PyDict [(txt "5xx_errors", to_dict [(txt "500", 1)])] /\
  shows_tables (txt "show me the top status codes") = true /\
  shows_anomalies (txt "show me the top status codes") = false /\
  shows_anomalies (txt "any anomaly today?") = true.
Proof. vm_compute. repeat split; reflexivity. Qed.

(** * Further properties of the code *)

(** ** What [parse_nginx_logs] returns *)

Lemma records_of_In (lines : list str) (e : entry) :
  In e (records_of lines) <-> exists line, In line lines /\ parse_line line = Some e.
Proof.
  unfold records_of. rewrite in_flat_map. split.
  - intros [line [Hl He]]. exists line. split; [assumption|].
    destruct (parse_line line) as [e'|]; [|destruct He].
    destruct He as [<-|[]]. reflexivity.
  - intros [line [Hl He]]. exists line. split; [assumption|].
    rewrite He. left. reflexivity.
Qed.

Lemma parse_nginx_logs_In (limit : Z) (file : option (list str)) (e : entry) :
  In e (fst (parse_nginx_logs limit file)) ->
  exists content line,
    file = Some content /\ In line content /\ parse_line line = Some e.
Proof.
  destruct file as [content|]; simpl; [|intros []].
  rewrite parse_lines_records, records_of_In.
  intros [line [Hl He]]. exists content, line.
  repeat split; try assumption. apply (slice_from_In _ _ _ Hl).
Qed.

(** X1: every record that [parse_nginx_logs] returns, whatever the limit
    and the file, has fields as the pattern cuts them: address, user,
    method, url and protocol are non-empty and free of white space, the
    date is non-empty and has no closing bracket, the status is three
    digits, the size is digits or a dash, referrer and agent have no
    quote. *)
Theorem parsed_records_conform (limit : Z) (file : option (list str)) :
  Forall (fun e => conforming e = true) (fst (parse_nginx_logs limit file)).
Proof.
  apply Forall_forall. intros e He.
  apply parse_nginx_logs_In in He. destruct He as (content & line & _ & _ & P).
  apply parse_line_sound in P. tauto.
Qed.

(** X2: [parse_nginx_logs] never returns more records than the file has
    lines, and each record is the record of some line of the file. *)
Theorem parsed_records_come_from_lines (limit : Z) (content : list str) :
  length (fst (parse_nginx_logs limit (Some content))) <= length content /\
  Forall (fun e => exists line, In line content /\ parse_line line = Some e)
         (fst (parse_nginx_logs limit (Some content))).
Proof.
  split.
  - simpl. etransitivity; [apply parse_lines_length|].
    unfold slice_from. rewrite length_skipn. lia.
  - apply Forall_forall. intros e He. apply parse_nginx_logs_In in He.
    destruct He as (c & line & E & Hl & P). inversion E; subst c.
    exists line. tauto.
Qed.

(** X3: with a positive limit [L], the records are those of the last
    [min(L, M)] lines of a file of [M] lines, in the order of the lines;
    there are at most [min(L, M)] of them. *)
Theorem positive_limit_keeps_last_lines (limit : Z) (content : list str) :
  (0 < limit)%Z ->
  (exists before,
      content = before ++ last_n (Z.to_nat limit) content /\
      length (last_n (Z.to_nat limit) content)
      = Nat.min (Z.to_nat limit) (length content) /\
      fst (parse_nginx_logs limit (Some content))
      = records_of (last_n (Z.to_nat limit) content)) /\
  length (fst (parse_nginx_logs limit (Some content)))
  <= Nat.min (Z.to_nat limit) (length content).
Proof.
  intros H. simpl. rewrite slice_from_last by assumption. split.
  - destruct (last_n_suffix (Z.to_nat limit) content) as [before E].
    exists before. split; [exact E|]. split; [apply last_n_length|].
    apply parse_lines_records.
  - rewrite <- last_n_length. apply parse_lines_length.
Qed.

Lemma positive_limit_keeps_last_lines_witness :
  (0 < 1)%Z /\
  (exists before,
      [line_ok; line_malformed; line_ok]
      = before ++ last_n (Z.to_nat 1) [line_ok; line_malformed; line_ok] /\
      length (last_n (Z.to_nat 1) [line_ok; line_malformed; line_ok])
      = Nat.min (Z.to_nat 1) (length [line_ok; line_malformed; line_ok]) /\
      fst (parse_nginx_logs 1 (Some [line_ok; line_malformed; line_ok]))
      = records_of (last_n (Z.to_nat 1) [line_ok; line_malformed; line_ok])) /\
  length (fst (parse_nginx_logs 1 (Some [line_ok; line_malformed; line_ok])))
  <= Nat.min (Z.to_nat 1) (length [line_ok; line_malformed; line_ok]).
Proof.
  assert (H : (0 < 1)%Z) by lia.
  split; [exact H|].
  apply (@positive_limit_keeps_last_lines 1
           [line_ok; line_malformed; line_ok] H).
Defined.

(** X4: with a negative limit [-k], the slice [lines[k:]] leaves out the
    first [k] lines and the records are those of all the lines after
    them. *)
Theorem negative_limit_skips_first_lines (limit : Z) (content : list str) :
  (limit < 0)%Z ->
  fst (parse_nginx_logs limit (Some content))
  = records_of (skipn (Z.to_nat (- limit)) content).
Proof.
  intros H. simpl. rewrite parse_lines_records. f_equal.
  unfold slice_from.
  replace (- limit <? 0)%Z with false by (symmetry; apply Z.ltb_ge; lia).
  destruct (Z.le_gt_cases (- limit) (Z.of_nat (length content))) as [L|G].
  - rewrite Z.min_l by assumption. reflexivity.
  - rewrite Z.min_r by lia. rewrite Nat2Z.id.
    rewrite !skipn_all2; [reflexivity | lia | lia].
Qed.

Lemma negative_limit_skips_first_lines_witness :
  (-1 < 0)%Z /\
  fst (parse_nginx_logs (-1) (Some [line_ok; line_malformed; line_ok]))
  = records_of (skipn (Z.to_nat (- -1)) [line_ok; line_malformed; line_ok]).
Proof.
  assert (H : (-1 < 0)%Z) by lia.
  split; [exact H|].
  apply (@negative_limit_skips_first_lines (-1)
           [line_ok; line_malformed; line_ok] H).
Defined.

(** X5: when the file has no more lines than a positive limit, every line
    is used. *)
Theorem short_file_is_read_whole (limit : Z) (content : list str) :
  (0 < limit)%Z -> (Z.of_nat (length content) <= limit)%Z ->
  fst (parse_nginx_logs limit (Some content)) = records_of content.
Proof.
  intros H L. simpl. rewrite slice_from_last by assumption.
  rewrite parse_lines_records. unfold last_n.
  replace (length content - Z.to_nat limit) with 0 by lia. reflexivity.
Qed.

Lemma short_file_is_read_whole_witness :
  (0 < LOG_LIMIT)%Z /\
  (Z.of_nat (length [line_ok; line_malformed]) <= LOG_LIMIT)%Z /\
  fst (parse_nginx_logs LOG_LIMIT (Some [line_ok; line_malformed]))
  = records_of [line_ok; line_malformed].
Proof.
  assert (H : (0 < LOG_LIMIT)%Z) by (unfold LOG_LIMIT; lia).
  assert (L : (Z.of_nat (length [line_ok; line_malformed]) <= LOG_LIMIT)%Z)
    by (unfold LOG_LIMIT; simpl; lia).
  split; [exact H|]. split; [exact L|].
  apply (@short_file_is_read_whole LOG_LIMIT [line_ok; line_malformed] H L).
Defined.

(** The two states of the file that [parse_nginx_logs] handles itself. *)
Lemma startup_cases (file : option (list str)) :
  match startup file with
  | (shown, Exit status_code) =>
      status_code = 1%Z /\
      (file = None \/
       exists content,
         file = Some content /\
         forall line, In line (last_n 500 content) -> ~ conforms_within line)
  | (shown, Serve df) =>
      shown = [Banner] /\ df <> [] /\
      Forall (fun e => conforming e = true) df /\
      exists content,
        file = Some content /\ df = records_of (last_n 500 content)
  end.
Proof.
  pose proof (parsed_records_conform LOG_LIMIT file) as C.
  unfold startup.
  destruct file as [content|]; [|split; [reflexivity | left; reflexivity]].
  assert (E0 : parse_nginx_logs LOG_LIMIT (Some content)
               = (records_of (last_n 500 content), [])).
  { unfold parse_nginx_logs.
    rewrite slice_from_last by (unfold LOG_LIMIT; lia).
    rewrite parse_lines_records. reflexivity. }
  rewrite E0 in *. simpl fst in C.
  destruct (records_of (last_n 500 content)) as [|e df] eqn:E.
  - split; [reflexivity|]. right. exists content.
    split; [reflexivity|]. intros line Hl.
    apply parse_line_None.
    destruct (parse_line line) as [e|] eqn:P; [|reflexivity].
    assert (Hin : In e (records_of (last_n 500 content)))
      by (apply records_of_In; exists line; tauto).
    rewrite E in Hin. destruct Hin.
  - split; [reflexivity|]. split; [discriminate|]. split; [assumption|].
    exists content. split; [reflexivity | symmetry; exact E].
Qed.

Lemma startup_exit_panel (file : option (list str)) (shown : list panel)
      (c : Z) :
  startup file = (shown, Exit c) -> last shown Banner = NoLogsParsed.
Proof.
  unfold startup.
  destruct (parse_nginx_logs LOG_LIMIT file) as [[|e logs] sh];
    intros E; inversion E. apply last_last.
Qed.

(** X6: the main program shows the panel "no logs parsed" and calls
    [exit(1)] before the loop exactly when the file is missing or is read
    and none of its last 500 lines has a part that satisfies the pattern;
    when [open] fails otherwise, nothing is caught and nothing shown: the
    exception ends the program; in the remaining case the program shows the
    banner only and enters the loop with a store that is not empty and
    holds the records of those lines. *)
Theorem startup_on_exits_or_serves (f : log_file) :
  match startup_on f with
  | (shown, ExitCalled status_code) =>
      status_code = 1%Z /\
      last shown Banner = NoLogsParsed /\
      (f = FileMissing \/
       exists content,
         f = FileLines content /\
         forall line, In line (last_n 500 content) -> ~ conforms_within line)
  | (shown, Uncaught) => f = FileUnreadable /\ shown = []
  | (shown, LoopEntered df) =>
      shown = [Banner] /\ df <> [] /\
      Forall (fun e => conforming e = true) df /\
      exists content,
        f = FileLines content /\ df = records_of (last_n 500 content)
  end.
Proof.
  destruct f as [| |content]; simpl.
  - split; [reflexivity|]. split; [reflexivity|]. left. reflexivity.
  - split; reflexivity.
  - pose proof (startup_cases (Some content)) as H.
    destruct (startup (Some content)) as [shown [c|df]] eqn:E.
    + destruct H as [Hc [Hf|(c0 & Hf & Hl)]]; [discriminate|].
      inversion Hf; subst c0.
      split; [assumption|]. split; [apply (startup_exit_panel _ E)|].
      right. exists content. split; [reflexivity | assumption].
    + destruct H as (H1 & H2 & H3 & c0 & Hf & Hd).
      inversion Hf; subst c0.
      repeat split; try assumption. exists content. split; [reflexivity | assumption].
Qed.

(** ** Totals of the counts *)

Lemma In_firstn {A : Type} (n : nat) (l : list A) (x : A) :
  In x (firstn n l) -> In x l.
Proof.
  intros H. rewrite <- (firstn_skipn n l). apply in_or_app. left. exact H.
Qed.

Lemma In_skipn {A : Type} (n : nat) (l : list A) (x : A) :
  In x (skipn n l) -> In x l.
Proof.
  intros H. rewrite <- (firstn_skipn n l). apply in_or_app. right. exact H.
Qed.

Lemma total_bump (x : str) (tbl : series) : total (bump x tbl) = S (total tbl).
Proof.
  unfold total. induction tbl as [|[k n] tbl IH]; simpl; [reflexivity|].
  destruct (str_eqb x k); simpl; [reflexivity|]. rewrite IH. lia.
Qed.

Lemma total_value_count (xs : list str) : total (value_count xs) = length xs.
Proof.
  induction xs as [|x xs IH] using rev_ind; [reflexivity|].
  rewrite value_count_snoc, total_bump, IH, length_app. simpl. lia.
Qed.

Lemma total_insert_desc (row : str * nat) (l : series) :
  total (insert_desc row l) = snd row + total l.
Proof.
  unfold total. induction l as [|h l IH]; simpl; [reflexivity|].
  destruct (snd h <=? snd row); simpl; [reflexivity|]. rewrite IH. lia.
Qed.

Lemma total_value_counts (xs : list str) : total (value_counts xs) = length xs.
Proof.
  unfold value_counts. rewrite <- total_value_count.
  generalize (value_count xs) as l.
  induction l as [|h l IH]; simpl; [reflexivity|].
  rewrite total_insert_desc, IH. reflexivity.
Qed.

Lemma count_le_length (k : str) (xs : list str) : count k xs <= length xs.
Proof.
  induction xs as [|x xs IH]; simpl; [lia|].
  destruct (str_eqb k x); lia.
Qed.

(** X7: the counts listed under [status_counts] add up to
    [total_requests], the number of records of the store. *)
Theorem status_counts_add_up (df : list entry) :
  exists l,
    summary_rows (txt "status_counts") df = Some l /\
    pyget (txt "total_requests") (generate_summary df)
    = Some (PyInt (total l)) /\
    total l = length df.
Proof.
  exists (value_counts (column status df)).
  assert (T : total (value_counts (column status df)) = length df)
    by (rewrite total_value_counts; apply length_map).
  split; [apply summary_rows_status|]. split; [|exact T].
  simpl. rewrite T. reflexivity.
Qed.

(** X8: every count that [generate_summary] lists, under [status_counts],
    [top_ips] or [top_urls], is at least 1 and at most the number of
    records. *)
Theorem listed_counts_within_bounds (df : list entry) (key : str) :
  In key [txt "status_counts"; txt "top_ips"; txt "top_urls"] ->
  exists l,
    summary_rows key df = Some l /\
    Forall (fun row => 1 <= snd row <= length df) l.
Proof.
  assert (B : forall f n,
             Forall (fun row => 1 <= snd row <= length df)
                    (firstn n (value_counts (column f df)))).
  { intros f n. apply Forall_forall. intros [k c] H.
    apply In_firstn, value_counts_In in H. destruct H as [Hin ->]. simpl.
    split; [apply count_pos; assumption|].
    etransitivity; [apply count_le_length|].
    unfold column. rewrite length_map. lia. }
  intros [<-|[<-|[<-|[]]]].
  - exists (value_counts (column status df)).
    split; [apply summary_rows_status|].
    rewrite <- (firstn_all (value_counts (column status df))). apply B.
  - eexists. split; [apply summary_rows_top_ips | apply B].
  - eexists. split; [apply summary_rows_top_urls | apply B].
Qed.

Lemma listed_counts_within_bounds_witness :
  In (txt "top_ips") [txt "status_counts"; txt "top_ips"; txt "top_urls"] /\
  exists l,
    summary_rows (txt "top_ips") store_5xx = Some l /\
    Forall (fun row => 1 <= snd row <= length store_5xx) l.
Proof.
  assert (H : In (txt "top_ips")
                 [txt "status_counts"; txt "top_ips"; txt "top_urls"])
    by (simpl; tauto).
  split; [exact H|].
  apply (@listed_counts_within_bounds store_5xx (txt "top_ips") H).
Defined.

(** ** The rows kept by [head] *)

Lemma by_count_le (R : str * nat -> str * nat -> Prop) (a b : str * nat) :
  by_count R a b -> snd b <= snd a.
Proof. unfold by_count. lia. Qed.

Lemma head_dominates (xs : list str) (n : nat) (row other : str * nat) :
  In row (head n (value_counts xs)) ->
  In other (left_out n (value_counts xs)) ->
  snd other <= snd row.
Proof.
  unfold head, left_out.
  destruct (value_counts_ranked xs) as [_ SS]. revert SS n.
  generalize (value_counts xs) as l.
  induction l as [|h l IH]; intros SS [|n]; simpl; try tauto.
  inversion SS; subst. intros [<-|Hr] Ho.
  - match goal with F : Forall _ l |- _ => rewrite Forall_forall in F;
      specialize (F other (In_skipn _ _ _ Ho)) end.
    unfold before_first_seen in *. lia.
  - apply (IH ltac:(assumption) n); assumption.
Qed.

Lemma head_or_left_out (n : nat) (s : series) (row : str * nat) :
  In row s -> In row (head n s) \/ In row (left_out n s).
Proof.
  unfold head, left_out. intros H.
  rewrite <- (firstn_skipn n s) in H. apply in_app_or in H. exact H.
Qed.

(** X9: [top_ips] and [top_urls] hold at most three rows, the tables of
    the loop at most ten, and a value of the store that such a view does
    not list occurs no more often than any value the view lists. *)
Theorem top_views_keep_the_most_frequent (df : list entry) (k : str) :
  let listed (view : series) := exists c, In (k, c) view in
  let dominated (xs : list str) (view : series) :=
    Forall (fun row => count k xs <= snd row) view in
  (exists top,
      summary_rows (txt "top_ips") df = Some top /\ length top <= 3 /\
      (In k (column ip df) -> listed top \/ dominated (column ip df) top)) /\
  (exists top,
      summary_rows (txt "top_urls") df = Some top /\ length top <= 3 /\
      (In k (column url df) -> listed top \/ dominated (column url df) top)) /\
  length (top_ips_table df) <= 10 /\
  (In k (column ip df) ->
   listed (top_ips_table df) \/ dominated (column ip df) (top_ips_table df)) /\
  length (top_urls_table df) <= 10 /\
  (In k (column url df) ->
   listed (top_urls_table df) \/ dominated (column url df) (top_urls_table df)).
Proof.
  assert (D : forall xs n,
             In k xs ->
             (exists c, In (k, c) (head n (value_counts xs))) \/
             Forall (fun row => count k xs <= snd row)
                    (head n (value_counts xs))).
  { intros xs n Hk.
    assert (Hin : In (k, count k xs) (value_counts xs))
      by (apply value_counts_In; tauto).
    destruct (head_or_left_out n _ _ Hin) as [H|H].
    - left. exists (count k xs). exact H.
    - right. apply Forall_forall. intros row Hr.
      apply (head_dominates xs n row (k, count k xs) Hr H). }
  assert (L : forall n (s : series), length (head n s) <= n)
    by (intros n s; unfold head; apply firstn_le_length).
  cbv zeta. split; [|split; [|split; [|split; [|split]]]].
  - eexists. split; [apply summary_rows_top_ips|]. split; [apply L | apply D].
  - eexists. split; [apply summary_rows_top_urls|]. split; [apply L | apply D].
  - apply L.
  - apply D.
  - apply L.
  - apply D.
Qed.

(** ** A store that grows *)

Lemma column_app (f : entry -> str) (df df' : list entry) :
  column f (df ++ df') = column f df ++ column f df'.
Proof. apply map_app. Qed.

(** X10: a record added to the store raises [total_requests] by one and
    the count of its own status by one, and leaves the count of every other
    status as it was. *)
Theorem one_more_record (df : list entry) (e : entry) (k : str) :
  pyget (txt "total_requests") (generate_summary (df ++ [e]))
  = Some (PyInt (S (length df))) /\
  summary_count k (df ++ [e])
  = if str_eqb k (status e)
    then Some (S (match summary_count k df with Some n => n | None => 0 end))
    else summary_count k df.
Proof.
  split.
  - simpl. rewrite length_app. simpl. do 2 f_equal. lia.
  - rewrite !summary_count_lookup, column_app, !value_counts_lookup, count_app.
    simpl. destruct (str_eqb k (status e)).
    + destruct (count k (column status df)) as [|n] eqn:C; simpl.
      * reflexivity.
      * do 2 f_equal. lia.
    + replace (count k (column status df) + (0 + 0))
        with (count k (column status df)) by lia.
      reflexivity.
Qed.

(** ** The anomaly counts *)

(** X11: the counts that [detect_anomalies] works from add up to the number
    of records whose status starts with 5. *)
Theorem anomaly_counts_add_up (df : list entry) :
  total (error_counts df)
  = length (filter (fun e => startswith (txt "5") (status e)) df).
Proof.
  unfold error_counts. rewrite total_value_counts.
  unfold column. apply length_map.
Qed.


(** X12: for a status made of three of the digits 0 to 9, the test of
    [detect_anomalies] that the status starts with 5 holds exactly when the
    number it writes is between 500 and 599. *)
Theorem five_prefix_is_5xx (s : str) :
  length s = 3 -> Forall (fun c => 48 <= code c <= 57) s ->
  (startswith (txt "5") s = true <-> 500 <= code_value s <= 599).
Proof.
  intros L D.
  destruct s as [|a [|b [|c [|d s]]]]; simpl in L; try lia. clear L.
  inversion D as [|? ? Da D1]; subst. inversion D1 as [|? ? Db D2]; subst.
  inversion D2 as [|? ? Dc _]; subst.
  assert (V : code_value [a; b; c]
              = 100 * (code a - 48) + 10 * (code b - 48) + (code c - 48))
    by (unfold code_value, digit_value; cbn [fold_left]; lia).
  rewrite V.
  change (startswith (txt "5") [a; b; c]) with (char_eqb "5" a && true).
  rewrite andb_true_r, char_eqb_eq. split.
  - intros <-. change (code "5") with 53. lia.
  - intros R. apply code_inj. change (code "5") with 53. lia.
Qed.

Lemma five_prefix_is_5xx_witness :
  length (txt "503") = 3 /\
  Forall (fun c => 48 <= code c <= 57) (txt "503") /\
  (startswith (txt "5") (txt "503") = true <->
   500 <= code_value (txt "503") <= 599).
Proof.
  assert (L : length (txt "503") = 3) by reflexivity.
  assert (D : Forall (fun c => 48 <= code c <= 57) (txt "503"))
    by (repeat constructor; vm_compute; repeat constructor).
  split; [exact L|]. split; [exact D|].
  apply (@five_prefix_is_5xx (txt "503") L D).
Defined.

(** ** The keyword tests under added text *)



(** ** [strip] *)

Lemma lstrip_split (s : str) :
  exists l, s = l ++ lstrip s /\ forallb is_space l = true.
Proof.
  induction s as [|c s IH]; simpl.
  - exists []. split; reflexivity.
  - destruct (is_space c) eqn:E.
    + destruct IH as [l [E1 E2]]. exists (c :: l). simpl.
      rewrite E, E2, <- E1. split; reflexivity.
    + exists []. split; reflexivity.
Qed.

Lemma lstrip_head (s : str) (c : ascii) (rest : str) :
  lstrip s = c :: rest -> is_space c = false.
Proof.
  induction s as [|a s IH]; simpl; [discriminate|].
  destruct (is_space a) eqn:E; [exact IH|].
  intros H. inversion H; subst. exact E.
Qed.

Lemma forallb_rev {A : Type} (p : A -> bool) (l : list A) :
  forallb p (rev l) = forallb p l.
Proof.
  induction l as [|a l IH]; simpl; [reflexivity|].
  rewrite forallb_app, IH. simpl. rewrite andb_true_r. apply andb_comm.
Qed.

Lemma rstrip_split (s : str) :
  exists r, s = rstrip s ++ r /\ forallb is_space r = true.
Proof.
  unfold rstrip. destruct (lstrip_split (rev s)) as [l [E1 E2]].
  exists (rev l). split.
  - rewrite <- rev_app_distr, <- E1. symmetry. apply rev_involutive.
  - rewrite forallb_rev. exact E2.
Qed.

Lemma rstrip_last (s init : str) (c : ascii) :
  rstrip s = init ++ [c] -> is_space c = false.
Proof.
  unfold rstrip. intros H. apply (f_equal (@rev ascii)) in H.
  rewrite rev_involutive, rev_app_distr in H. simpl in H.
  apply lstrip_head in H. exact H.
Qed.

Lemma strip_spec (s : str) :
  (exists l r, s = l ++ strip s ++ r /\
               forallb is_space l = true /\ forallb is_space r = true) /\
  (forall c rest, strip s = c :: rest -> is_space c = false) /\
  (forall init c, strip s = init ++ [c] -> is_space c = false).
Proof.
  unfold strip.
  destruct (lstrip_split s) as [l [E1 E2]].
  destruct (rstrip_split (lstrip s)) as [r [E3 E4]].
  split; [|split].
  - exists l, r. rewrite <- E3. tauto.
  - intros c rest H. rewrite H in E3. simpl in E3.
    apply (lstrip_head s E3).
  - intros init c. apply rstrip_last.
Qed.

(** ** [ask_ai] *)

(** X14: when [ask_ai] returns the text of the model, the model process
    completed, and the text is its output with the white space at both ends
    taken off: it neither begins nor ends with white space. *)
Theorem ask_ai_answer_is_stripped
        (run : prompt -> run_outcome) (question : str)
        (summary anomalies : pyval) (text : str) :
  ask_ai run question summary anomalies = Answered text ->
  exists stdout l r,
    run (Prompt summary anomalies question) = Completed stdout /\
    stdout = l ++ text ++ r /\
    forallb is_space l = true /\ forallb is_space r = true /\
    (forall c rest, text = c :: rest -> is_space c = false) /\
    (forall init c, text = init ++ [c] -> is_space c = false).
Proof.
  unfold ask_ai.
  destruct (run (Prompt summary anomalies question)) as [stdout| |];
    try discriminate.
  intros H. inversion H; subst text.
  destruct (strip_spec stdout) as [(l & r & E & Hl & Hr) [Hh Ht]].
  exists stdout, l, r. repeat split; assumption.
Qed.

Lemma ask_ai_answer_is_stripped_witness :
  ask_ai (model_says (txt "  5 errors  ")) (txt "any anomaly?")
         (PyDict []) (PyDict [])
  = Answered (txt "5 errors") /\
  exists stdout l r,
    model_says (txt "  5 errors  ")
               (Prompt (PyDict []) (PyDict []) (txt "any anomaly?"))
    = Completed stdout /\
    stdout = l ++ txt "5 errors" ++ r /\
    forallb is_space l = true /\ forallb is_space r = true /\
    (forall c rest, txt "5 errors" = c :: rest -> is_space c = false) /\
    (forall init c, txt "5 errors" = init ++ [c] -> is_space c = false).
Proof.
  assert (H : ask_ai (model_says (txt "  5 errors  ")) (txt "any anomaly?")
                     (PyDict []) (PyDict [])
              = Answered (txt "5 errors")) by reflexivity.
  split; [exact H|].
  apply (@ask_ai_answer_is_stripped _ _ _ _ _ H).
Defined.

(** ** The question loop *)

Lemma is_exit_iff (q : str) :
  is_exit q = true <-> lower q = txt "exit" \/ lower q = txt "quit".
Proof.
  unfold is_exit. simpl. rewrite orb_false_r, orb_true_iff, !str_eqb_eq.
  tauto.
Qed.

Lemma detect_anomalies_truthy (df : list entry) :
  truthy (detect_anomalies df)
  = existsb (fun e => startswith (txt "5") (status e)) df.
Proof.
  unfold detect_anomalies. rewrite <- existsb_column.
  destruct (error_counts df) eqn:C; cbn [truthy].
  - rewrite error_counts_filter in C. apply value_counts_nil in C.
    apply filter_nil_iff in C. symmetry. exact C.
  - destruct (existsb (startswith (txt "5")) (column status df)) eqn:E;
      [reflexivity|].
    apply filter_nil_iff in E. rewrite error_counts_filter, E in C.
    discriminate.
Qed.

Lemma letter_not_space (c : ascii) :
  65 <= code c <= 122 -> is_space c = false.
Proof.
  intros H. unfold is_space.
  destruct (9 <=? code c) eqn:A1; destruct (code c <=? 13) eqn:A2;
    destruct (28 <=? code c) eqn:A3; destruct (code c <=? 32) eqn:A4;
    destruct (code c =? 133) eqn:A5; destruct (code c =? 160) eqn:A6;
    simpl; try reflexivity;
    rewrite ?Nat.leb_le, ?Nat.leb_gt, ?Nat.eqb_eq, ?Nat.eqb_neq in *; lia.
Qed.

Lemma same_letters_not_space (w word : str) :
  small_letters word -> Forall2 same_letter w word ->
  Forall (fun c => is_space c = false) w.
Proof.
  intros S F. revert S. induction F as [|c x w word H F IH]; intros S;
    constructor.
  - inversion S as [|? ? Sx Sw]; subst. apply letter_not_space.
    destruct H as [->|[Hc Hx]]; lia.
  - inversion S; subst. apply IH. assumption.
Qed.

Lemma lstrip_spaces (l s : str) :
  forallb is_space l = true -> lstrip (l ++ s) = lstrip s.
Proof.
  induction l as [|c l IH]; simpl; [reflexivity|].
  intros H. apply andb_prop in H. destruct H as [-> H]. apply IH, H.
Qed.

Lemma lstrip_id (s : str) :
  Forall (fun c => is_space c = false) s -> lstrip s = s.
Proof. intros [|c s' Hc _]; simpl; [|rewrite Hc]; reflexivity. Qed.

Lemma lstrip_keeps (w r : str) :
  Forall (fun c => is_space c = false) w -> w <> [] ->
  lstrip (w ++ r) = w ++ r.
Proof.
  intros [|c w' Hc _] N; [congruence|]. simpl. rewrite Hc. reflexivity.
Qed.

Lemma strip_between (l w r : str) :
  forallb is_space l = true -> forallb is_space r = true ->
  Forall (fun c => is_space c = false) w ->
  strip (l ++ w ++ r) = w.
Proof.
  intros Hl Hr Hw. unfold strip. rewrite (@lstrip_spaces l (w ++ r) Hl).
  destruct w as [|c w].
  - simpl. rewrite <- (app_nil_r r), (@lstrip_spaces r [] Hr). reflexivity.
  - rewrite (@lstrip_keeps (c :: w) r Hw) by discriminate.
    unfold rstrip. rewrite rev_app_distr.
    rewrite lstrip_spaces by (rewrite forallb_rev; exact Hr).
    rewrite lstrip_id by (apply Forall_rev; exact Hw).
    apply rev_involutive.
Qed.

Lemma word_line_iff (word typed : str) :
  small_letters word ->
  (lower (strip typed) = word <-> is_word_line word typed).
Proof.
  intros S. split.
  - intros H. destruct (strip_spec typed) as [(l & r & E & Hl & Hr) _].
    exists l, (strip typed), r. repeat split; try assumption.
    apply (@lower_small (strip typed) word S). exact H.
  - intros (l & w & r & -> & Hl & Hr & F).
    rewrite (@strip_between l w r Hl Hr (@same_letters_not_space w word S F)).
    apply (@lower_small w word S). exact F.
Qed.

Lemma is_exit_line (typed : str) :
  is_exit (strip typed) = true <-> exit_line typed.
Proof.
  rewrite is_exit_iff. unfold exit_line.
  rewrite <- !word_line_iff; [tauto | |];
    unfold small_letters; vm_compute; repeat constructor.
Qed.

Lemma has_5xx_iff (df : list entry) :
  existsb (fun e => startswith (txt "5") (status e)) df = true
  <-> has_5xx df.
Proof.
  rewrite existsb_exists. unfold has_5xx. split.
  - intros [e [H1 H2]]. apply starts_with_five in H2.
    destruct H2 as [rest H2]. exists e, rest. tauto.
  - intros (e & rest & H1 & H2). exists e. split; [assumption|].
    apply starts_with_five. exists rest. assumption.
Qed.

Section LoopProperties.

Variable correct_spelling : str -> str.
Variable run : nat -> prompt -> run_outcome.
Variable renders : loop_panel -> bool.

Lemma show_shown (ps : list loop_panel) :
  exists rest,
    ps = fst (show renders ps) ++ rest /\
    (snd (show renders ps) = true -> rest = []) /\
    Forall (fun p => box_print renders p = true) (fst (show renders ps)).
Proof.
  induction ps as [|p ps IH]; simpl.
  - exists []. repeat split. constructor.
  - destruct (box_print renders p) eqn:B.
    + destruct IH as (rest & E & T & F).
      destruct (show renders ps) as [shown ok]. simpl in *.
      exists rest. split; [congruence|]. split; [assumption|].
      constructor; assumption.
    + exists (p :: ps). repeat split; [discriminate | constructor].
Qed.

Lemma before_answer_plain (df : list entry) (q : str) :
  filter is_ai_answer (before_answer correct_spelling df q) = [] /\
  filter is_goodbye (before_answer correct_spelling df q) = [].
Proof.
  unfold before_answer.
  destruct (str_eqb (correct_spelling q) q);
    destruct (shows_anomalies (correct_spelling q));
    destruct (truthy (detect_anomalies df));
    destruct (shows_tables (correct_spelling q)); split; reflexivity.
Qed.

Lemma filter_prefix_nil {A : Type} (p : A -> bool) (l a b : list A) :
  l = a ++ b -> filter p l = [] -> filter p a = [].
Proof.
  intros -> H. rewrite filter_app in H. apply app_eq_nil in H. tauto.
Qed.

(** A turn calls the model at most once, shows an answer panel only after
    the call, and shows no goodbye panel. *)
Lemma turn_counts (df : list entry) (n : nat) (q : str) :
  let '(shown, n', ok) := turn correct_spelling run renders df n q in
  filter is_goodbye shown = [] /\
  (if ok then n' = S n /\ length (filter is_ai_answer shown) = 1
   else n <= n' <= S n /\ filter is_ai_answer shown = []).
Proof.
  unfold turn.
  destruct (show_shown (before_answer correct_spelling df q))
    as (rest & E & _ & _).
  destruct (before_answer_plain df q) as [A G].
  destruct (show renders (before_answer correct_spelling df q))
    as [shown ok]. simpl in E.
  pose proof (filter_prefix_nil is_ai_answer _ _ E A) as A'.
  pose proof (filter_prefix_nil is_goodbye _ _ E G) as G'.
  destruct ok.
  - destruct (box_print renders _).
    + rewrite !filter_app, A', G'. simpl. repeat split; reflexivity.
    + repeat split; try assumption; lia.
  - repeat split; try assumption; lia.
Qed.


(** X16: in any run of the loop an answer panel is shown only after a call
    of the model and at most one for each call, so the answer panels are
    never more than the calls, and the calls never more than the lines
    typed.  When the run ends on the exit word, some typed line was "exit"
    or "quit", every call was answered and the goodbye panel is shown once;
    when it ends at the end of the input, no typed line was the exit word,
    each line was a question that got its call and its answer, and no
    goodbye panel is shown; when it ends on a panel that [rich] refuses, at
    most the last call is left without its answer and no goodbye panel is
    shown. *)
Theorem session_answers_every_question
        (df : list entry) (n : nat) (inputs : list str) :
  let '(shown, calls, e) :=
    session correct_spelling run renders df n inputs in
  n + length (filter is_ai_answer shown) <= calls /\
  calls <= n + length inputs /\
  match e with
  | SessionClosed =>
      n + length (filter is_ai_answer shown) = calls /\
      filter is_goodbye shown = [Goodbye] /\
      exists t, In t inputs /\ exit_line t
  | InputExhausted =>
      n + length (filter is_ai_answer shown) = calls /\
      calls = n + length inputs /\ filter is_goodbye shown = [] /\
      forall t, In t inputs -> ~ exit_line t
  | MarkupFailed =>
      calls <= n + length (filter is_ai_answer shown) + 1 /\
      filter is_goodbye shown = []
  end.
Proof.
  revert n. induction inputs as [|t inputs IH]; intros n; simpl.
  - split; [lia|]. split; [lia|]. split; [lia|]. split; [lia|].
    split; [reflexivity|]. intros t [].
  - destruct (is_exit (strip t)) eqn:X.
    + simpl. split; [lia|]. split; [lia|]. split; [lia|].
      split; [reflexivity|].
      exists t. split; [left; reflexivity | apply is_exit_line, X].
    + pose proof (turn_counts df n (strip t)) as T.
      destruct (turn correct_spelling run renders df n (strip t))
        as [[shown n'] ok].
      destruct T as [G T]. destruct ok.
      * destruct T as [-> A]. specialize (IH (S n)).
        destruct (session correct_spelling run renders df (S n) inputs)
          as [[later calls] e].
        destruct IH as (I1 & I2 & I3).
        rewrite !filter_app, length_app, A, G. simpl.
        split; [lia|]. split; [lia|].
        destruct e.
        -- destruct I3 as (J1 & J2 & t' & J3 & J4).
           split; [lia|]. split; [assumption|].
           exists t'. split; [right; assumption | assumption].
        -- destruct I3 as (J1 & J2 & J3 & J4).
           split; [lia|]. split; [lia|]. split; [assumption|].
           intros t' [<-|Hin]; [|apply J4; assumption].
           rewrite <- is_exit_line. congruence.
        -- destruct I3 as (J1 & J2). split; [lia | assumption].
      * destruct T as [B A]. rewrite A. simpl.
        repeat split; try assumption; lia.
Qed.

Lemma anomaly_panel_cases
      (df : list entry) (n : nat) (q : str) (a : pyval) :
  let shown := fst (fst (turn correct_spelling run renders df n q)) in
  let corrected_q := correct_spelling q in
  let corrected_shown :=
    corrected_q = q \/ renders (CorrectedInput corrected_q) = true in
  (In NoMajorAnomalies shown <->
   shows_anomalies corrected_q = true /\
   existsb (fun e => startswith (txt "5") (status e)) df = false /\
   corrected_shown) /\
  (In (AnomaliesDetected a) shown <->
   shows_anomalies corrected_q = true /\
   existsb (fun e => startswith (txt "5") (status e)) df = true /\
   a = detect_anomalies df /\
   corrected_shown /\
   renders (AnomaliesDetected a) = true).
Proof.
  cbv zeta. unfold turn, before_answer.
  rewrite <- detect_anomalies_truthy.
  destruct (str_eqb (correct_spelling q) q) eqn:Q;
    [apply str_eqb_eq in Q | apply str_eqb_neq in Q];
    destruct (renders (CorrectedInput (correct_spelling q))) eqn:RC;
    destruct (shows_anomalies (correct_spelling q));
    destruct (truthy (detect_anomalies df));
    destruct (renders (AnomaliesDetected (detect_anomalies df))) eqn:RA;
    destruct (shows_tables (correct_spelling q));
    simpl; rewrite ?RC, ?RA; simpl;
    repeat match goal with
           | |- context [renders ?p] =>
               lazymatch p with
               | CorrectedInput _ => fail
               | AnomaliesDetected _ => fail
               | _ => destruct (renders p)
               end; simpl
           end;
    repeat match goal with
           | |- context [match ?x with _ => _ end] =>
               destruct x; simpl
           end;
    (split; split; intros H;
     [ repeat match goal with
              | H : _ \/ _ |- _ => destruct H as [H|H]
              end;
       try discriminate; try contradiction;
       try (injection H as H; subst a);
       repeat split; auto
     | decompose [and or] H; subst; try discriminate; try congruence;
       simpl; auto 10
     | repeat match goal with
              | H : _ \/ _ |- _ => destruct H as [H|H]
              end;
       try discriminate; try contradiction;
       try (injection H as H; subst a);
       repeat split; auto
     | decompose [and or] H; subst; try discriminate; try congruence;
       simpl; auto 10 ]).
Qed.

(** X17: in a turn of the loop the panel "no major anomalies" is shown
    exactly when the corrected question contains "anomaly" in small or
    capital letters, no record of the store has a status whose first
    character is 5, and the panel of the corrected input, if there is one,
    was rendered; the panel of the anomalies is shown exactly when the
    question contains "anomaly", some record has such a status, the panel
    of the corrected input, if any, was rendered and [rich] renders the
    panel itself; it then shows the result of [detect_anomalies]. *)
Theorem anomaly_panel_follows_store
        (df : list entry) (n : nat) (q : str) (a : pyval) :
  let shown := fst (fst (turn correct_spelling run renders df n q)) in
  let corrected_q := correct_spelling q in
  let corrected_shown :=
    corrected_q = q \/ renders (CorrectedInput corrected_q) = true in
  (In NoMajorAnomalies shown <->
   occurs_in_any_case (txt "anomaly") corrected_q /\
   ~ has_5xx df /\
   corrected_shown) /\
  (In (AnomaliesDetected a) shown <->
   occurs_in_any_case (txt "anomaly") corrected_q /\
   has_5xx df /\
   a = detect_anomalies df /\
   corrected_shown /\
   renders (AnomaliesDetected a) = true).
Proof.
  cbv zeta. destruct (anomaly_panel_cases df n q a) as [H1 H2].
  cbv zeta in H1, H2. rewrite H1, H2. clear H1 H2.
  assert (S : small_letters (txt "anomaly"))
    by (unfold small_letters; vm_compute; repeat constructor).
  pose proof (occurs_any_case (correct_spelling q) S) as O.
  unfold shows_anomalies. rewrite O, <- has_5xx_iff.
  rewrite not_true_iff_false. tauto.
Qed.

End LoopProperties.


(** A panel that [rich] refuses ends the run: with an answer of the model
    that does not render, the model was called once, no answer panel is
    shown, and the next line is not read. *)
Example session_dies_on_markup :
  session no_correction (model_answers (txt "see [/b]")) renders_none
          store_5xx 0 [txt "hello"; txt "exit"]
  = ([], 1, MarkupFailed).
Proof. reflexivity. Qed.
